(** * treematcher: tree patterns matched against target trees

    A shallow embedding of [treematcher.py]: the attribute caches
    ([TreePatternCache], [_FakeCache]), the helper predicates of
    [PatternSyntax], and the matching engine of [TreePattern]
    ([is_local_match], [match], [cascade_match], [find_match]).

    Python objects are modelled as follows.
    - A target node is a [tnode]: object identity is the field [tid], the
      ETE features read by the source ([name], [species], [evoltype]) are
      fields, a missing feature is [None].
    - A raised exception is the [Raise] constructor of [result].
    - The shared mutable [syntax.cache] attribute of the syntax objects is an
      explicit store, a finite map from syntax objects to the bound cache.
    - The builtin [eval] is a parameter of the development, except on the
      one expression form the source itself generates for literal names. *)

From Stdlib Require Import ZArith Ascii.
From stdpp Require Import base option list sorting strings gmap.

Set Warnings "-register-all".

Local Open Scope string_scope.
Local Open Scope list_scope.

(** ** Python values, exceptions and results *)

(** The exceptions the source raises, catches or lets through. *)
Inductive exn : Type :=
  | ValueError (msg : string)
  | NameError (msg : string)
  | AttributeError
  | IndexError
  | KeyError
  | TypeError
  | SyntaxError
  | OtherError.

(** A call either returns a value or raises. *)
Inductive result (A : Type) : Type :=
  | Return (a : A)
  | Raise (e : exn).
Arguments Return {A} a.
Arguments Raise {A} e.

Definition bind {A B : Type} (r : result A) (k : A → result B) : result B :=
  match r with
  | Return a => k a
  | Raise e => Raise e
  end.

Notation "'do' x <- r 'in' k" := (bind r (λ x, k))
  (at level 10, x name, r at level 100, k at level 200, only parsing).

(** The values a constraint expression can evaluate to, as far as the
    matcher observes them: truth value, identity with [None], and the
    operands [&] accepts. *)
Inductive pyval : Type :=
  | VBool (b : bool)
  | VInt (z : Z)
  | VNone
  | VStr (s : string)
  | VOther (truthy : bool).

Definition is_bool (v : pyval) : bool :=
  match v with VBool _ => true | _ => false end.

(** [bool(v)], the test of [if v:]. *)
Definition py_truthy (v : pyval) : bool :=
  match v with
  | VBool b => b
  | VInt z => negb (z =? 0)%Z
  | VNone => false
  | VStr s => negb (String.eqb s EmptyString)
  | VOther t => t
  end.

(** [a & b]: defined between [bool] and [int] operands, a [TypeError]
    otherwise. *)
Definition py_and (a b : pyval) : result pyval :=
  match a, b with
  | VBool x, VBool y => Return (VBool (x && y))
  | VBool x, VInt y => Return (VInt (Z.land (Z.b2z x) y))
  | VInt x, VBool y => Return (VInt (Z.land x (Z.b2z y)))
  | VInt x, VInt y => Return (VInt (Z.land x y))
  | _, _ => Raise TypeError
  end.

(** The value of a feature of a node: a string, or [None] when the node has
    no such feature ([getattr(n, attr_name, None)]). *)
Definition attr_value : Type := option string.

(** ** Target trees *)

Inductive tnode : Type :=
  TNode { tid : nat;
          name : string;
          species : attr_value;
          evoltype : attr_value;
          children : list tnode }.

Section tnode_induction.
Variable P : tnode → Prop.
Hypothesis Hnode : ∀ i n s e cs, Forall P cs → P (TNode i n s e cs).

Fixpoint tnode_ind' (t : tnode) : P t :=
  match t with
  | TNode i n s e cs =>
      Hnode i n s e cs
        ((fix go (l : list tnode) : Forall P l :=
            match l with
            | [] => Forall_nil_2 P
            | c :: l' => Forall_cons_2 P c l' (tnode_ind' c) (go l')
            end) cs)
  end.
End tnode_induction.

(** [getattr(n, attr_name, None)] *)
Definition getattr (n : tnode) (attr_name : string) : attr_value :=
  if String.eqb attr_name "name" then Some (name n)
  else if String.eqb attr_name "species" then species n
  else if String.eqb attr_name "evoltype" then evoltype n
  else None.

Definition is_leaf (n : tnode) : bool :=
  match children n with [] => true | _ => false end.

(** The traversal orders of ETE's [Tree.traverse]. *)
Inductive strategy : Type := Preorder | Levelorder | Postorder.

Fixpoint preorder (t : tnode) : list tnode :=
  t :: (fix go (cs : list tnode) : list tnode :=
          match cs with
          | [] => []
          | c :: cs' => preorder c ++ go cs'
          end) (children t).

Fixpoint postorder (t : tnode) : list tnode :=
  (fix go (cs : list tnode) : list tnode :=
     match cs with
     | [] => []
     | c :: cs' => postorder c ++ go cs'
     end) (children t) ++ [t].

(** Level-wise concatenation, the rows of a breadth-first walk. *)
Fixpoint zip_levels (a b : list (list tnode)) : list (list tnode) :=
  match a, b with
  | [], _ => b
  | _, [] => a
  | x :: a', y :: b' => (x ++ y) :: zip_levels a' b'
  end.

Fixpoint levels (t : tnode) : list (list tnode) :=
  [t] :: (fix go (cs : list tnode) : list (list tnode) :=
            match cs with
            | [] => []
            | c :: cs' => zip_levels (levels c) (go cs')
            end) (children t).

Definition levelorder (t : tnode) : list tnode := concat (levels t).

(** [node.traverse(strategy)] *)
Definition traverse (s : strategy) (t : tnode) : list tnode :=
  match s with
  | Preorder => preorder t
  | Levelorder => levelorder t
  | Postorder => postorder t
  end.

(** [node.iter_leaves()] and [node.get_leaves()]: the leaves in preorder. *)
Definition iter_leaves (t : tnode) : list tnode :=
  filter (λ n, is_leaf n = true) (preorder t).

Definition get_leaves (t : tnode) : list tnode := iter_leaves t.

(** [node.get_descendants()]: every node below [t], in level order, without
    [t] itself. *)
Definition get_descendants (t : tnode) : list tnode := tail (levelorder t).

(** ** Builtins on lists of feature values *)

(** [sorted(values)] on names. Strings are ordered by code point; ordering
    [None] against anything is a [TypeError], so only a list of at most
    one element may contain it. *)
Fixpoint all_strings (l : list attr_value) : option (list string) :=
  match l with
  | [] => Some []
  | Some s :: l' => cons s <$> all_strings l'
  | None :: _ => None
  end.

Definition py_sorted (l : list attr_value) : result (list attr_value) :=
  match all_strings l with
  | Some ss => Return (Some <$> merge_sort String.le ss)
  | None => if decide (length l ≤ 1)%nat then Return l else Raise TypeError
  end.

(** [set(values)] *)
Definition py_set (l : list attr_value) : gset attr_value := list_to_set l.

(** [values.count(x)] *)
Definition py_count (x : attr_value) (l : list attr_value) : nat :=
  length (filter (λ v, v = x) l).

(** ** TreePatternCache *)

Module TreePatternCache.

(** The two dictionaries of the cache, keyed by node identity. A value
    lists the nodes of the cached container in its iteration order. *)
Record t : Type := Build {
  leaves_cache : gmap nat (list tnode);
  all_node_cache : gmap nat (list tnode)
}.

(** Modelled from ETE: [tree.get_cached_content()] maps every node of the
    tree to the container of its leaves, and with [leaves_only=False] to
    the container of the node and all its descendants. Here the
    containers are filled in traversal order. *)
Definition get_cached_content (leaves_only : bool) (tree : tnode)
    : gmap nat (list tnode) :=
  list_to_map
    ((λ n, (tid n, if leaves_only then iter_leaves n else levelorder n))
       <$> preorder tree).

Definition init (tree : tnode) : t :=
  {| leaves_cache := get_cached_content true tree;
     all_node_cache := get_cached_content false tree |}.

Definition get_cached_attr (self : t) (attr_name : string) (node : tnode)
    (leaves_only : bool) : result (list attr_value) :=
  let cache := if leaves_only then leaves_cache self
               else all_node_cache self in
  match cache !! tid node with
  | Some ns => Return ((λ n, getattr n attr_name) <$> ns)
  | None => Raise KeyError
  end.

Definition get_leaves (self : t) (node : tnode) : result (list tnode) :=
  match leaves_cache self !! tid node with
  | Some ns => Return ns
  | None => Raise KeyError
  end.

Definition get_descendants (self : t) (node : tnode)
    : result (list tnode) :=
  match all_node_cache self !! tid node with
  | Some ns => Return ns
  | None => Raise KeyError
  end.

End TreePatternCache.

(** ** _FakeCache *)

Module FakeCache.

Definition get_cached_attr (attr_name : string) (node : tnode)
    (leaves_only : bool) : result (list attr_value) :=
  let iter_nodes := if leaves_only then iter_leaves
                    else traverse Levelorder in
  Return ((λ n, getattr n attr_name) <$> iter_nodes node).

Definition get_leaves (node : tnode) : result (list tnode) :=
  Return (get_leaves node).

Definition get_descendants (node : tnode) : result (list tnode) :=
  Return (get_descendants node).

End FakeCache.

(** ** PatternSyntax *)

(** The argument of [contains_species] and [contains_leaves]: one string,
    or a collection of values. *)
Inductive names_arg : Type :=
  | OneName (s : string)
  | Names (l : list attr_value).

Module PatternSyntax.

(** The state of a syntax object is its private [__cache] attribute:
    [None], or the cache bound by the last assignment. The property
    [cache] reads it and answers with the fake cache when it is unset;
    the three functions below are the methods of whichever cache the
    property returns. *)
Definition cache_get_cached_attr (cache : option TreePatternCache.t)
    (attr_name : string) (node : tnode) (leaves_only : bool)
    : result (list attr_value) :=
  match cache with
  | Some c => TreePatternCache.get_cached_attr c attr_name node leaves_only
  | None => FakeCache.get_cached_attr attr_name node leaves_only
  end.

Definition cache_get_leaves (cache : option TreePatternCache.t)
    (node : tnode) : result (list tnode) :=
  match cache with
  | Some c => TreePatternCache.get_leaves c node
  | None => FakeCache.get_leaves node
  end.

Definition leaves (cache : option TreePatternCache.t) (target_node : tnode)
    : result (list attr_value) :=
  do names <- cache_get_cached_attr cache "name" target_node true in
  py_sorted names.

Definition descendants (cache : option TreePatternCache.t)
    (target_node : tnode) : result (list attr_value) :=
  do names <- cache_get_cached_attr cache "name" target_node false in
  py_sorted names.

Definition species (cache : option TreePatternCache.t)
    (target_node : tnode) : result (gset attr_value) :=
  do names <- cache_get_cached_attr cache "species" target_node true in
  Return (py_set names).

(** [set([x])] for a string, [set(x)] otherwise. *)
Definition as_set (names : names_arg) : gset attr_value :=
  match names with
  | OneName s => py_set [Some s]
  | Names l => py_set l
  end.

(** The loop [found = 0; for v in values: if v in names: found += 1]. *)
Fixpoint count_found (names : gset attr_value) (values : list attr_value)
    (found : nat) : nat :=
  match values with
  | [] => found
  | v :: values' =>
      count_found names values'
        (if decide (v ∈ names) then found + 1 else found)
  end.

Definition contains_species (cache : option TreePatternCache.t)
    (target_node : tnode) (species_names : names_arg) : result bool :=
  let species_names := as_set species_names in
  do values <- cache_get_cached_attr cache "species" target_node true in
  let found := count_found species_names values 0 in
  Return (bool_decide (found = size species_names)).

Definition contains_leaves (cache : option TreePatternCache.t)
    (target_node : tnode) (node_names : names_arg) : result bool :=
  let node_names := as_set node_names in
  do values <- cache_get_cached_attr cache "name" target_node true in
  let found := count_found node_names values 0 in
  Return (bool_decide (found = size node_names)).

Definition n_species (cache : option TreePatternCache.t)
    (target_node : tnode) : result nat :=
  do species <- cache_get_cached_attr cache "species" target_node true in
  Return (size (py_set species)).

Definition n_leaves (cache : option TreePatternCache.t)
    (target_node : tnode) : result nat :=
  do ls <- cache_get_leaves cache target_node in
  Return (length ls).

Definition n_duplications (cache : option TreePatternCache.t)
    (target_node : tnode) : result nat :=
  do events <- cache_get_cached_attr cache "evoltype" target_node false in
  Return (py_count (Some "D") events).

Definition n_speciations (cache : option TreePatternCache.t)
    (target_node : tnode) : result nat :=
  do events <- cache_get_cached_attr cache "evoltype" target_node false in
  Return (py_count (Some "S") events).

End PatternSyntax.

(** ** Strings of the pattern language *)

Definition dquote : ascii := "034"%char.
Definition backslash : ascii := "092"%char.
Definition at_sign : ascii := "@"%char.

(** ['@' in s] *)
Fixpoint contains_char (c : ascii) (s : string) : bool :=
  match s with
  | EmptyString => false
  | String a s' => if Ascii.eqb a c then true else contains_char c s'
  end.

(** [s.replace(c, by)] for a one-character [c]. *)
Fixpoint replace_char (c : ascii) (by_ : string) (s : string) : string :=
  match s with
  | EmptyString => EmptyString
  | String a s' =>
      if Ascii.eqb a c then by_ ++ replace_char c by_ s'
      else String a (replace_char c by_ s')
  end.

(** [s] without the prefix [pre], when it starts with it. *)
Fixpoint strip_prefix (pre s : string) : option string :=
  match pre, s with
  | EmptyString, _ => Some s
  | String a pre', String b s' =>
      if Ascii.eqb a b then strip_prefix pre' s' else None
  | String _ _, EmptyString => None
  end.

(** ** The builtin [eval] on the expression generated for literal names *)

(** A character that stands for itself inside a double-quoted Python string
    literal: printable ASCII other than the quote and the backslash. *)
Definition plain_char (a : ascii) : bool :=
  let n := nat_of_ascii a in
  (32 <=? n)%nat && (n <=? 126)%nat
  && negb (Ascii.eqb a dquote) && negb (Ascii.eqb a backslash).

(** The string denoted by the rest of a double-quoted literal that must end
    the expression: plain characters stand for themselves, a doubled
    backslash denotes one backslash. Any other input is not of this form. *)
Fixpoint literal_body (s : string) : option string :=
  match s with
  | EmptyString => None
  | String a s' =>
      if Ascii.eqb a dquote then
        match s' with EmptyString => Some EmptyString | _ => None end
      else if Ascii.eqb a backslash then
        match s' with
        | String b s'' =>
            if Ascii.eqb b backslash
            then String backslash <$> literal_body s''
            else None
        | EmptyString => None
        end
      else if plain_char a then String a <$> literal_body s'
      else None
  end.

Definition name_eq_prefix : string :=
  "__target_node.name == " ++ String dquote EmptyString.

(** The literal [lit] when the expression reads
    [__target_node.name == "lit"]. *)
Definition name_literal (constraint : string) : option string :=
  strip_prefix name_eq_prefix constraint ≫= literal_body.

(** ** Pattern trees and the syntax store *)

(** A pattern node: its expression [name], the syntax object it refers to,
    and its children. *)
Inductive pattern : Type :=
  PNode { pname : string;
          psyntax : nat;
          pchildren : list pattern }.

Section pattern_induction.
Variable P : pattern → Prop.
Hypothesis Hnode : ∀ n s cs, Forall P cs → P (PNode n s cs).

Fixpoint pattern_ind' (p : pattern) : P p :=
  match p with
  | PNode n s cs =>
      Hnode n s cs
        ((fix go (l : list pattern) : Forall P l :=
            match l with
            | [] => Forall_nil_2 P
            | c :: l' => Forall_cons_2 P c l' (pattern_ind' c) (go l')
            end) cs)
  end.
End pattern_induction.

(** Number of nodes of a pattern; [len(self.get_descendants())] is one
    less. *)
Fixpoint psize (p : pattern) : nat :=
  S ((fix go (cs : list pattern) : nat :=
        match cs with
        | [] => 0
        | c :: cs' => psize c + go cs'
        end) (pchildren p)).

Definition pattern_length (p : pattern) : nat := psize p - 1.

(** Height of a pattern, the depth the matcher can recurse to. *)
Fixpoint pheight (p : pattern) : nat :=
  S ((fix go (cs : list pattern) : nat :=
        match cs with
        | [] => 0
        | c :: cs' => pheight c `max` go cs'
        end) (pchildren p)).

(** The private [__cache] attribute of every syntax object: absent from
    the map when it is [None]. *)
Abbreviation store := (gmap nat TreePatternCache.t).

(** [syntax.cache = value] *)
Definition set_cache (σ : store) (syntax : nat)
    (value : option TreePatternCache.t) : store :=
  match value with
  | Some c => <[syntax := c]> σ
  | None => delete syntax σ
  end.

(** [itertools.permutations(l)]: every ordering, in lexicographic order of
    the positions. *)
Fixpoint selections {A : Type} (l : list A) : list (A * list A) :=
  match l with
  | [] => []
  | x :: l' => (x, l') :: ((λ yr, (yr.1, x :: yr.2)) <$> selections l')
  end.

Fixpoint permutations_upto {A : Type} (n : nat) (l : list A)
    : list (list A) :=
  match n with
  | 0 => [[]]
  | S n' =>
      flat_map (λ xr, cons xr.1 <$> permutations_upto n' xr.2) (selections l)
  end.

Definition itertools_permutations {A : Type} (l : list A) : list (list A) :=
  permutations_upto (length l) l.

(** [if st is not None: sub_status &= st] *)
Definition and_unless_none (sub_status st : pyval) : result pyval :=
  match st with
  | VNone => Return sub_status
  | _ => py_and sub_status st
  end.

(** ** TreePattern *)

Module TreePattern.
Section engine.

(** The builtin [eval(constraint, scope)] on every expression other than
    the literal-name comparison: the scope is made of the methods of one
    syntax object, so the value depends on that object, on the cache bound
    to it at the time of the call, on the expression, on the tree the
    target node lives in, and on the target node. *)
Variable eval_expr :
  nat → option TreePatternCache.t → string → tnode → tnode → result pyval.

(** [eval(constraint, constraint_scope)] *)
Definition py_eval (syntax : nat) (bound : option TreePatternCache.t)
    (constraint : string) (world target_node : tnode) : result pyval :=
  match name_literal constraint with
  | Some lit => Return (VBool (String.eqb (name target_node) lit))
  | None => eval_expr syntax bound constraint world target_node
  end.

(** The expression evaluated for a pattern node. *)
Definition constraint_of (self : pattern) : string :=
  if String.eqb (pname self) EmptyString then EmptyString
  else if contains_char at_sign (pname self)
  then replace_char at_sign "__target_node" (pname self)
  else if String.eqb "*" (pname self) then EmptyString
  else name_eq_prefix ++ pname self ++ String dquote EmptyString.

(** [eval(constraint, constraint_scope) if constraint else True], with
    the scope built from the syntax object [syntax]. *)
Definition eval_or_true (σ : store) (syntax : nat) (constraint : string)
    (world target_node : tnode) : result pyval :=
  if String.eqb constraint EmptyString then Return (VBool true)
  else py_eval syntax (σ !! syntax) constraint world target_node.

Definition not_boolean_msg : string :=
  "not a boolean result: . Check quoted_node_names.".
Definition failed_msg : string := "Constraint evaluation failed at".

(** [self.is_local_match(target_node, cache)]; [root] is
    [self.get_tree_root()]. *)
Definition is_local_match (σ : store) (root self : pattern)
    (world target_node : tnode) : result pyval :=
  let constraint := constraint_of self in
  match eval_or_true σ (psyntax self) constraint world target_node with
  | Return st => Return st
  | Raise (ValueError _) => Raise (ValueError not_boolean_msg)
  | Raise AttributeError | Raise IndexError => Raise (ValueError failed_msg)
  | Raise (NameError _) =>
      match eval_or_true σ (psyntax root) constraint world target_node with
      | Return st => Return st
      | Raise (NameError _) => Raise (NameError failed_msg)
      | Raise e => Raise e
      end
  | Raise e => Raise e
  end.

(** *** match *)

Section match_loops.
Variable child_match : pattern → tnode → store → store * result pyval.

(** [for i in range(len(self.children)):
       st = self.children[i].match(candidate[i], cache)
       if st is not None: sub_status &= st]
    where [ps] is what is left of [self.children] from index [i]. *)
Fixpoint match_children (ps : list pattern) (candidate : list tnode)
    (i : nat) (sub_status : pyval) (σ : store) : store * result pyval :=
  match ps with
  | [] => (σ, Return sub_status)
  | p :: ps' =>
      match candidate !! i with
      | None => (σ, Raise IndexError)
      | Some t =>
          match child_match p t σ with
          | (σ', Raise e) => (σ', Raise e)
          | (σ', Return st) =>
              match and_unless_none sub_status st with
              | Raise e => (σ', Raise e)
              | Return sub_status' =>
                  match_children ps' candidate (S i) sub_status' σ'
              end
          end
      end
  end.

(** [for candidate in permutations(node.children): ...
       status = sub_status
       if status: break] *)
Fixpoint match_candidates (ps : list pattern)
    (candidates : list (list tnode)) (status : pyval) (σ : store)
    : store * result pyval :=
  match candidates with
  | [] => (σ, Return status)
  | candidate :: candidates' =>
      match match_children ps candidate 0 (VBool true) σ with
      | (σ', Raise e) => (σ', Raise e)
      | (σ', Return sub_status) =>
          if py_truthy sub_status then (σ', Return sub_status)
          else match_candidates ps candidates' sub_status σ'
      end
  end.
End match_loops.

(** [self.match(node, cache)] *)
Fixpoint match_ (root self : pattern) (world node : tnode)
    (cache : option TreePatternCache.t) (σ : store)
    : store * result pyval :=
  let σ := set_cache σ (psyntax self) cache in
  match is_local_match σ root self world node with
  | Raise e => (σ, Raise e)
  | Return status =>
      if py_truthy status && bool_decide (pchildren self ≠ []) then
        if bool_decide (length (pchildren self) ≤ length (children node))%nat
        then
          match_candidates
            (λ p t σ, match_ root p world t cache σ)
            (pchildren self) (itertools_permutations (children node))
            status σ
        else (σ, Return (VBool false))
      else (σ, Return status)
  end.

(** *** cascade_match *)

(** The triple [(status, self, matched_nodes)]. *)
Definition cres : Type := pyval * pattern * list tnode.

(** A computation on the store that returns, raises, or runs out of the
    recursion budget ([None]). *)
Definition M (A : Type) : Type := store → option (store * result A).

Definition ret {A : Type} (a : A) : M A := λ σ, Some (σ, Return a).
Definition raise {A : Type} (e : exn) : M A := λ σ, Some (σ, Raise e).
Definition lift {A : Type} (r : result A) : M A := λ σ, Some (σ, r).
Definition bindM {A B : Type} (m : M A) (k : A → M B) : M B :=
  λ σ, match m σ with
       | None => None
       | Some (σ', Return a) => k a σ'
       | Some (σ', Raise e) => Some (σ', Raise e)
       end.

Section cascade_loops.
Variable child_cascade : pattern → tnode → M cres.

(** The two loops [for i in range(len(self.children))] of the source have
    one shape:
    [st, self, sub_sub_nodes = self.children[i].cascade_match(target, cache)]
    followed by the update of [sub_status] and [sub_nodes += sub_sub_nodes].
    [todo] counts the indices of the range still to come, [self] is
    whatever the previous iteration assigned to it, [target_at i] is the
    node the child is matched against and [update] the update of
    [sub_status]. *)
Fixpoint cascade_loop (target_at : nat → option tnode)
    (update : pyval → pyval → result pyval) (todo i : nat) (self : pattern)
    (sub_status : pyval) (sub_nodes : list tnode) : M cres :=
  match todo with
  | 0 => ret (sub_status, self, sub_nodes)
  | S todo' =>
      match pchildren self !! i, target_at i with
      | Some p, Some t =>
          bindM (child_cascade p t) (λ r,
            bindM (lift (update sub_status r.1.1))
              (λ sub_status',
                 cascade_loop target_at update todo' (S i) r.1.2
                   sub_status' (sub_nodes ++ r.2)))
      | _, _ => raise IndexError
      end
  end.

(** The loop of the candidate branch: child [i] against [candidate[i]],
    and [if st is not None: sub_status &= st]. *)
Definition cascade_children (todo i : nat) (self : pattern)
    (candidate : list tnode) (sub_status : pyval) (sub_nodes : list tnode)
    : M cres :=
  cascade_loop (λ i, candidate !! i) and_unless_none todo i self
    sub_status sub_nodes.

(** The loop of the wildcard branch: every child against [node] itself,
    and [sub_status &= st] unconditionally. *)
Definition cascade_wildcard (todo i : nat) (self : pattern) (node : tnode)
    (sub_status : pyval) (sub_nodes : list tnode) : M cres :=
  cascade_loop (λ _, Some node) py_and todo i self sub_status sub_nodes.

(** The loop over the candidates. *)
Fixpoint cascade_candidates (candidates : list (list tnode))
    (self : pattern) (status : pyval) (matched_nodes : list tnode)
    : M cres :=
  match candidates with
  | [] => ret (status, self, matched_nodes)
  | candidate :: candidates' =>
      bindM (cascade_children (length (pchildren self)) 0 self
               candidate (VBool true) [])
        (λ r,
           let matched_nodes' := matched_nodes ++ r.2 in
           if py_truthy r.1.1
           then ret (r.1.1, r.1.2, matched_nodes')
           else cascade_candidates candidates' r.1.2 r.1.1 matched_nodes')
  end.
End cascade_loops.

(** The last two statements: [self.syntax.cache = None] and the
    [return]. *)
Definition cascade_return (r : cres) : M cres :=
  λ σ, Some (set_cache σ (psyntax r.1.2) None, Return r).

(** The body of [cascade_match], with the recursive calls made through
    [child_cascade]. *)
Definition cascade_body (child_cascade : pattern → tnode → M cres)
    (root self : pattern) (world node : tnode)
    (cache : option TreePatternCache.t) : M cres :=
  λ σ,
    let σ := set_cache σ (psyntax self) cache in
    match is_local_match σ root self world node with
    | Raise e => Some (σ, Raise e)
    | Return status =>
        if py_truthy status then
          let matched_nodes :=
            if String.eqb (pname self) "*" then [] else [node] in
          if bool_decide (pchildren self ≠ []) then
            if bool_decide
                 (length (pchildren self) ≤ length (children node))%nat
            then
              bindM (cascade_candidates child_cascade
                       (itertools_permutations (children node))
                       self status matched_nodes)
                cascade_return σ
            else if String.eqb (pname self) "*" then
              bindM (cascade_wildcard child_cascade
                       (length (pchildren self)) 0 self node
                       (VBool true) [])
                (λ r, cascade_return
                        (r.1.1, r.1.2, matched_nodes ++ r.2)) σ
            else cascade_return (VBool false, self, matched_nodes) σ
          else cascade_return (status, self, matched_nodes) σ
        else cascade_return (status, self, []) σ
    end.

(** [self.cascade_match(node, cache)]. The receiver of a recursive call
    is a child of whatever [self] currently is, so the recursion is on a
    budget [fuel]; [cascade_match_total] shows that the height of the
    pattern is always enough. *)
Fixpoint cascade_match (fuel : nat) (root self : pattern)
    (world node : tnode) (cache : option TreePatternCache.t) : M cres :=
  match fuel with
  | 0 => λ _, None
  | S fuel' =>
      cascade_body
        (λ p t, cascade_match fuel' root p world t cache)
        root self world node cache
  end.

(** *** find_match *)

(** What a consumer that exhausts the generator observes: the final
    store, the target tree as the search left it, the nodes yielded, and
    whether the generator finished or raised. *)
Record search : Type := Search {
  final_store : store;
  final_tree : tnode;
  yielded : list tnode;
  outcome : result unit
  }.

(** [maxhits is not None and num_hits >= maxhits] *)
Definition reached (maxhits : option Z) (num_hits : nat) : bool :=
  match maxhits with
  | Some m => (m <=? Z.of_nat num_hits)%Z
  | None => false
  end.

(** The loop of plain mode over the nodes still to be traversed. *)
Fixpoint plain_loop (root self : pattern) (tree : tnode)
    (maxhits : option Z) (cache : option TreePatternCache.t)
    (nodes : list tnode) (num_hits : nat) (σ : store) : search :=
  match nodes with
  | [] => Search σ tree [] (Return ())
  | node :: nodes' =>
      match match_ root self tree node cache σ with
      | (σ', Raise e) => Search σ' tree [] (Raise e)
      | (σ', Return st) =>
          let hit := py_truthy st in
          let num_hits' := if hit then num_hits + 1 else num_hits in
          let rest :=
            if reached maxhits num_hits' then Search σ' tree [] (Return ())
            else plain_loop root self tree maxhits cache nodes' num_hits' σ'
          in
          if hit
          then Search (final_store rest) tree (node :: yielded rest)
                 (outcome rest)
          else rest
      end
  end.

(** [node.detach()] seen from the tree that contains the node: the node
    of identity [i] leaves the children of its parent. The root has no
    parent in the tree and stays. *)
Fixpoint detach (i : nat) (t : tnode) : tnode :=
  TNode (tid t) (name t) (species t) (evoltype t)
    ((fix go (cs : list tnode) : list tnode :=
        match cs with
        | [] => []
        | c :: cs' =>
            if Nat.eqb (tid c) i then cs' else detach i c :: go cs'
        end) (children t)).

(** [item in node] for a node [item]: membership, by identity, in
    [node.get_descendants()]. *)
Definition contains (node item : tnode) : bool :=
  bool_decide (tid item ∈ tid <$> get_descendants node).

(** What one pass of the inner [for] leaves behind: [matched_root_node],
    [num_hits], and the node it yielded, if any. *)
Definition scan : Type := option tnode * nat * option tnode.

(** The inner [for node in tree.traverse("preorder")] of cascade mode. *)
Fixpoint cascade_scan (fuel : nat) (root : pattern) (tree : tnode)
    (cache : option TreePatternCache.t) (pattern_length : nat)
    (nodes : list tnode) (current_pattern_node : pattern)
    (matched_root_node : option tnode) (num_hits : nat) : M scan :=
  match nodes with
  | [] => ret (matched_root_node, num_hits, None)
  | node :: nodes' =>
      bindM (cascade_match fuel root current_pattern_node tree node cache)
        (λ r,
           let '(status, pattern_node, matched_nodes) := r in
           let matched_root_node :=
             match matched_root_node with
             | None => head matched_nodes
             | Some m => Some m
             end in
           if py_truthy status then
             match last matched_nodes, matched_root_node with
             | None, _ => raise IndexError
             | Some _, None => raise TypeError
             | Some l, Some m =>
                 if contains m l
                 then ret (matched_root_node, num_hits + 1, Some m)
                 else ret (matched_root_node, num_hits + 1, None)
             end
           else if bool_decide (pattern_length ≤ num_hits)%nat
           then ret (matched_root_node, num_hits, None)
           else cascade_scan fuel root tree cache pattern_length nodes'
                  pattern_node matched_root_node num_hits)
  end.

(** The [while] loop of cascade mode; [budget] bounds the number of times
    its condition is tested. *)
Fixpoint cascade_while (budget fuel : nat) (root self : pattern)
    (cache : option TreePatternCache.t) (tree : tnode)
    (matched_root_node : option tnode) (count num_hits : nat) (σ : store)
    : option search :=
  match budget with
  | 0 => None
  | S budget' =>
      if bool_decide (pattern_length self ≤ length (get_descendants tree))%nat
         && bool_decide (count ≤ 5)%nat
      then
        let restart :=
          match matched_root_node with
          | None => if bool_decide (count ≠ 0) then None else Some tree
          | Some m => Some (detach (tid m) tree)
          end in
        match restart with
        | None => Some (Search σ tree [] (Return ()))
        | Some tree' =>
            match cascade_scan fuel root tree' cache (pattern_length self)
                    (preorder tree') self None num_hits σ with
            | None => None
            | Some (σ', Raise e) => Some (Search σ' tree' [] (Raise e))
            | Some (σ', Return (matched_root_node', num_hits', y)) =>
                match cascade_while budget' fuel root self cache tree'
                        matched_root_node' (count + 1) num_hits' σ' with
                | None => None
                | Some rest =>
                    Some (Search (final_store rest) (final_tree rest)
                            (option_list y ++ yielded rest) (outcome rest))
                end
            end
        end
      else Some (Search σ tree [] (Return ()))
  end.

(** [self.find_match(tree, maxhits, cache, target_traversal, match_type)],
    consumed to the end. *)
Definition find_match (budget fuel : nat) (root self : pattern)
    (tree : tnode) (maxhits : option Z)
    (cache : option TreePatternCache.t) (target_traversal : strategy)
    (match_type : option string) (σ : store) : option search :=
  if bool_decide (match_type = Some "cascade") then
    cascade_while budget fuel root self cache tree None 0 0 σ
  else
    Some (plain_loop root self tree maxhits cache
            (traverse target_traversal tree) 0 σ).

End engine.
End TreePattern.

(** * Properties *)

(** ** The helper predicates *)

Section helpers.

Lemma all_strings_perm (l1 l2 : list attr_value) :
  l1 ≡ₚ l2 →
  match all_strings l1, all_strings l2 with
  | Some a, Some b => a ≡ₚ b
  | None, None => True
  | _, _ => False
  end.
Proof.
  induction 1 as [|x l1 l2 _ IH|x y l|l1 l2 l3 _ IH1 _ IH2]; simpl.
  - done.
  - destruct x; [|done].
    destruct (all_strings l1), (all_strings l2); simpl; try done.
    by constructor.
  - destruct x, y; try done.
    destruct (all_strings l); simpl; [|done]. apply perm_swap.
  - destruct (all_strings l1), (all_strings l2), (all_strings l3);
      try done. by etrans.
Qed.

Lemma merge_sort_perm (a b : list string) :
  a ≡ₚ b → merge_sort String.le a = merge_sort String.le b.
Proof.
  intros Hab. apply (Sorted_unique String.le).
  - apply (Sorted_merge_sort String.le).
  - apply (Sorted_merge_sort String.le).
  - by rewrite !merge_sort_Permutation.
Qed.

Lemma short_perm_eq (l1 l2 : list attr_value) :
  l1 ≡ₚ l2 → (length l1 ≤ 1)%nat → l1 = l2.
Proof.
  intros Hp Hlen. destruct l1 as [|x [|y l1]]; simpl in Hlen; [| |lia].
  - by apply Permutation_nil_l.
  - by apply Permutation_singleton_l.
Qed.

(** [sorted] does not depend on the order of its argument. *)
Lemma py_sorted_perm (l1 l2 : list attr_value) :
  l1 ≡ₚ l2 → py_sorted l1 = py_sorted l2.
Proof.
  intros Hp. unfold py_sorted.
  pose proof (all_strings_perm _ _ Hp) as Hs.
  destruct (all_strings l1), (all_strings l2); try done.
  - by rewrite (merge_sort_perm _ _ Hs).
  - rewrite <-(Permutation_length Hp).
    case_decide; [|done]. f_equal. by apply short_perm_eq.
Qed.

Lemma py_count_perm (x : attr_value) (l1 l2 : list attr_value) :
  l1 ≡ₚ l2 → py_count x l1 = py_count x l2.
Proof. intros Hp. unfold py_count. by rewrite Hp. Qed.

(** The counting loop counts, with multiplicity, the values that belong
    to the required set. *)
Lemma count_found_spec (names : gset attr_value) (values : list attr_value)
    (found : nat) :
  PatternSyntax.count_found names values found
  = (found + length (filter (λ v, v ∈ names) values))%nat.
Proof.
  revert found. induction values as [|v values IH]; intros found; simpl.
  - lia.
  - rewrite IH, filter_cons. case_decide; simpl; lia.
Qed.

Lemma count_found_perm (names : gset attr_value)
    (l1 l2 : list attr_value) :
  l1 ≡ₚ l2 →
  PatternSyntax.count_found names l1 0 = PatternSyntax.count_found names l2 0.
Proof. intros Hp. rewrite !count_found_spec. by rewrite Hp. Qed.

(** What [get_cached_content] guarantees of a cache built from [tree]:
    every node of the tree is a key, and its containers hold exactly its
    leaves, resp. the node and its descendants. The containers are sets
    of nodes, so their iteration order is arbitrary. *)
Definition cache_of (tree : tnode) (c : TreePatternCache.t) : Prop :=
  ∀ n, n ∈ preorder tree →
    (∃ ls, TreePatternCache.leaves_cache c !! tid n = Some ls
           ∧ ls ≡ₚ iter_leaves n)
    ∧ (∃ ds, TreePatternCache.all_node_cache c !! tid n = Some ds
             ∧ ds ≡ₚ traverse Levelorder n).

(** With a cache of the tree bound, the attribute lists are those of the
    direct traversal, up to order. *)
Lemma get_cached_attr_perm (tree : tnode) (c : TreePatternCache.t)
    (node : tnode) (attr_name : string) (leaves_only : bool) :
  cache_of tree c → node ∈ preorder tree →
  ∃ l1 l2,
    PatternSyntax.cache_get_cached_attr (Some c) attr_name node leaves_only
    = Return l1
    ∧ PatternSyntax.cache_get_cached_attr None attr_name node leaves_only
      = Return l2
    ∧ l1 ≡ₚ l2.
Proof.
  intros Hc Hn. destruct (Hc node Hn) as [(ls & Hls & Pls) (ds & Hds & Pds)].
  unfold PatternSyntax.cache_get_cached_attr,
    TreePatternCache.get_cached_attr, FakeCache.get_cached_attr.
  destruct leaves_only.
  - rewrite Hls. eexists _, _. split; [done|]. split; [done|].
    by apply fmap_Permutation.
  - rewrite Hds. eexists _, _. split; [done|]. split; [done|].
    by apply fmap_Permutation.
Qed.

(** The cache that [TreePatternCache(tree)] builds is a cache of the
    tree. *)
Lemma init_cache_of (tree : tnode) :
  NoDup (tid <$> preorder tree) →
  cache_of tree (TreePatternCache.init tree).
Proof.
  intros Hnd n Hn. unfold TreePatternCache.init; simpl.
  split; eexists; (split; [|reflexivity]);
    unfold TreePatternCache.get_cached_content;
    apply elem_of_list_to_map_1;
    try (rewrite <-list_fmap_compose; exact Hnd);
    apply list_elem_of_fmap; by exists n.
Qed.

Ltac use_attr_perm Hc Hn attr lo :=
  let l1 := fresh "l" in
  let l2 := fresh "l" in
  let H1 := fresh "H" in
  let H2 := fresh "H" in
  let Hp := fresh "Hp" in
  destruct (get_cached_attr_perm _ _ _ attr lo Hc Hn)
    as (l1 & l2 & H1 & H2 & Hp);
  rewrite H1, H2; simpl.

(** C8. On every node of the tree a cache was built from, each helper
    predicate computes the same result with that cache bound as with no
    cache bound. *)
Theorem helpers_cache_irrelevant (tree : tnode) (c : TreePatternCache.t)
    (node : tnode) :
  cache_of tree c → node ∈ preorder tree →
  PatternSyntax.leaves (Some c) node = PatternSyntax.leaves None node
  ∧ PatternSyntax.descendants (Some c) node
    = PatternSyntax.descendants None node
  ∧ PatternSyntax.species (Some c) node = PatternSyntax.species None node
  ∧ (∀ names, PatternSyntax.contains_species (Some c) node names
              = PatternSyntax.contains_species None node names)
  ∧ (∀ names, PatternSyntax.contains_leaves (Some c) node names
              = PatternSyntax.contains_leaves None node names)
  ∧ PatternSyntax.n_species (Some c) node
    = PatternSyntax.n_species None node
  ∧ PatternSyntax.n_leaves (Some c) node = PatternSyntax.n_leaves None node
  ∧ PatternSyntax.n_duplications (Some c) node
    = PatternSyntax.n_duplications None node
  ∧ PatternSyntax.n_speciations (Some c) node
    = PatternSyntax.n_speciations None node.
Proof.
  intros Hc Hn. repeat split.
  - unfold PatternSyntax.leaves. use_attr_perm Hc Hn "name" true.
    by apply py_sorted_perm.
  - unfold PatternSyntax.descendants. use_attr_perm Hc Hn "name" false.
    by apply py_sorted_perm.
  - unfold PatternSyntax.species. use_attr_perm Hc Hn "species" true.
    unfold py_set. by rewrite Hp.
  - intros names. unfold PatternSyntax.contains_species.
    use_attr_perm Hc Hn "species" true.
    by rewrite (count_found_perm _ _ _ Hp).
  - intros names. unfold PatternSyntax.contains_leaves.
    use_attr_perm Hc Hn "name" true.
    by rewrite (count_found_perm _ _ _ Hp).
  - unfold PatternSyntax.n_species. use_attr_perm Hc Hn "species" true.
    unfold py_set. by rewrite Hp.
  - unfold PatternSyntax.n_leaves, PatternSyntax.cache_get_leaves,
      TreePatternCache.get_leaves, FakeCache.get_leaves, get_leaves.
    destruct (Hc node Hn) as [(ls & -> & Pls) _]. simpl.
    by rewrite Pls.
  - unfold PatternSyntax.n_duplications.
    use_attr_perm Hc Hn "evoltype" false.
    by rewrite (py_count_perm _ _ _ Hp).
  - unfold PatternSyntax.n_speciations.
    use_attr_perm Hc Hn "evoltype" false.
    by rewrite (py_count_perm _ _ _ Hp).
Qed.

(** A gene tree with two genes of one species: [(a1[A], a2[A])r]. *)
Definition gene (i : nat) (n sp : string) : tnode :=
  TNode i n (Some sp) None [].

Definition two_genes : tnode :=
  TNode 0 "r" None (Some "D") [gene 1 "a1" "A"; gene 2 "a2" "A"].

Lemma helpers_cache_irrelevant_witness :
  PatternSyntax.leaves (Some (TreePatternCache.init two_genes)) two_genes
  = PatternSyntax.leaves None two_genes
  ∧ PatternSyntax.n_duplications (Some (TreePatternCache.init two_genes))
      two_genes
    = PatternSyntax.n_duplications None two_genes.
Proof.
  assert (Hc : cache_of two_genes (TreePatternCache.init two_genes)).
  { apply init_cache_of. apply (bool_decide_unpack _). by vm_compute. }
  assert (Hn : two_genes ∈ preorder two_genes) by (simpl; left).
  pose proof (helpers_cache_irrelevant two_genes _ two_genes Hc Hn) as H.
  split; [apply H | apply H].
Defined.

(** C10 (as amended). With an empty collection of required names,
    [contains_species] and [contains_leaves] return [True] whatever the
    leaves of the node are, when no cache is bound or the node is a key of
    the bound cache; with a bound cache that has no entry for the node
    they raise the [KeyError] of the dictionary lookup. *)
Theorem contains_empty_collection (target_node : tnode) :
  PatternSyntax.contains_species None target_node (Names []) = Return true
  ∧ PatternSyntax.contains_leaves None target_node (Names []) = Return true
  ∧ ∀ c,
      (is_Some (TreePatternCache.leaves_cache c !! tid target_node) →
         PatternSyntax.contains_species (Some c) target_node (Names [])
         = Return true
         ∧ PatternSyntax.contains_leaves (Some c) target_node (Names [])
           = Return true)
      ∧ (TreePatternCache.leaves_cache c !! tid target_node = None →
           PatternSyntax.contains_species (Some c) target_node (Names [])
           = Raise KeyError
           ∧ PatternSyntax.contains_leaves (Some c) target_node (Names [])
             = Raise KeyError).
Proof.
  assert (Hfound : ∀ values,
    bool_decide (PatternSyntax.count_found
                   (PatternSyntax.as_set (Names [])) values 0
                 = size (PatternSyntax.as_set (Names []))) = true).
  { intros values. apply bool_decide_eq_true. rewrite count_found_spec.
    change (PatternSyntax.as_set (Names [])) with (∅ : gset attr_value).
    rewrite size_empty. simpl.
    induction values as [|v values IH]; [done|].
    rewrite filter_cons. case_decide; [|done].
    by apply not_elem_of_empty in H. }
  unfold PatternSyntax.contains_species, PatternSyntax.contains_leaves.
  split; [|split].
  - simpl. by rewrite Hfound.
  - simpl. by rewrite Hfound.
  - intros c. simpl. unfold TreePatternCache.get_cached_attr. split.
    + intros [ns Hns]. rewrite Hns. simpl. by rewrite !Hfound.
    + intros Hns. by rewrite Hns.
Qed.

(** C10 (as stated, refuted). A cache built from the gene [a1] alone is
    bound, and the target is the root of [two_genes], which is no key of
    that cache: with an empty collection of required names both helpers
    raise [KeyError] instead of returning [True]. *)
Lemma contains_empty_foreign_cache :
  PatternSyntax.contains_species
    (Some (TreePatternCache.init (gene 1 "a1" "A"))) two_genes (Names [])
  = Raise KeyError
  ∧ PatternSyntax.contains_leaves
      (Some (TreePatternCache.init (gene 1 "a1" "A"))) two_genes (Names [])
    = Raise KeyError.
Proof. split; reflexivity. Qed.

Lemma contains_empty_collection_witness :
  PatternSyntax.contains_species (Some (TreePatternCache.init two_genes))
    two_genes (Names []) = Return true
  ∧ PatternSyntax.contains_leaves (Some (TreePatternCache.init two_genes))
      two_genes (Names []) = Return true.
Proof.
  destruct (contains_empty_collection two_genes) as (_ & _ & Hc).
  apply (Hc (TreePatternCache.init two_genes)).
  eexists. reflexivity.
Defined.

(** C2 (the code departs from it). The test [found == len(required)]
    counts leaves, not distinct values: two leaves of species [A] make
    [found = 2], so the request for [{A}] is rejected although [A] is
    covered, and the request for [{A, B}] is accepted although [B] is
    absent. The same holds of [contains_leaves] when two leaves share a
    name. *)
Theorem contains_counts_duplicates :
  PatternSyntax.contains_species None two_genes (Names [Some "A"])
  = Return false
  ∧ PatternSyntax.contains_species None two_genes
      (Names [Some "A"; Some "B"]) = Return true
  ∧ PatternSyntax.contains_species None two_genes (OneName "A")
    = Return false
  ∧ PatternSyntax.contains_leaves None
      (TNode 0 "r" None None [gene 1 "x" "A"; gene 2 "x" "B"])
      (Names [Some "x"]) = Return false.
Proof. repeat split; vm_compute; reflexivity. Qed.

(** When the values at the leaves are pairwise distinct, the test is the
    coverage test: it holds exactly when every required value occurs at
    some leaf. *)
Lemma count_found_distinct (names : gset attr_value)
    (values : list attr_value) :
  NoDup values →
  PatternSyntax.count_found names values 0 = size names
  ↔ ∀ x, x ∈ names → x ∈ values.
Proof.
  intros Hnd. rewrite count_found_spec. simpl.
  set (hits := filter (λ v, v ∈ names) values).
  assert (Hhits : NoDup hits) by by apply NoDup_filter.
  assert (Hsub : (list_to_set hits : gset attr_value) ⊆ names).
  { intros x. rewrite elem_of_list_to_set. unfold hits.
    rewrite list_elem_of_filter. tauto. }
  rewrite <-(size_list_to_set (C:=gset attr_value) hits) by done.
  split.
  - intros Hsize x Hx.
    assert (list_to_set hits = names) as Heq.
    { apply set_subseteq_size_eq; [done|lia]. }
    rewrite <-Heq in Hx. apply elem_of_list_to_set in Hx.
    unfold hits in Hx. apply list_elem_of_filter in Hx. tauto.
  - intros Hall. f_equal. apply set_eq. intros x.
    rewrite elem_of_list_to_set. unfold hits.
    rewrite list_elem_of_filter. split; [tauto | intros; split; auto].
Qed.

End helpers.

(** ** Local evaluation *)

Section local_match.
Import TreePattern.

Variable eval_expr :
  nat → option TreePatternCache.t → string → tnode → tnode → result pyval.


(** C4 (as amended). [is_local_match] hands back whatever value an
    evaluation produces, boolean or not: a value of the first evaluation
    is returned as it is, and every value returned is the value of the
    first evaluation or of the retry. The [ValueError] that reads "not a
    boolean result" is raised when the first evaluation raises a
    [ValueError], and only when an evaluation itself, the first or the
    retry in the root's scope, raised a [ValueError]. *)
Theorem is_local_match_returns_value (σ : store) (root self : pattern)
    (world target_node : tnode) :
  let first :=
    eval_or_true eval_expr σ (psyntax self) (constraint_of self) world
      target_node in
  let retry :=
    eval_or_true eval_expr σ (psyntax root) (constraint_of self) world
      target_node in
  let result := is_local_match eval_expr σ root self world target_node in
  (∀ v, first = Return v → result = Return v)
  ∧ (∀ v, result = Return v →
          first = Return v
          ∨ ∃ msg, first = Raise (NameError msg) ∧ retry = Return v)
  ∧ (∀ msg, first = Raise (ValueError msg) →
            result = Raise (ValueError not_boolean_msg))
  ∧ (result = Raise (ValueError not_boolean_msg) →
       (∃ msg, first = Raise (ValueError msg))
       ∨ ∃ msg, first = Raise (NameError msg)
                ∧ retry = Raise (ValueError not_boolean_msg)).
Proof.
  intros first retry result. unfold result, TreePattern.is_local_match.
  fold first. fold retry. split; [|split; [|split]].
  - by intros v ->.
  - intros v. destruct first as [v1|[]]; try done.
    + intros [= <-]. by left.
    + destruct retry as [v2|[]]; try done.
      intros [= <-]. right. by eexists.
  - by intros msg ->.
  - destruct first as [v1|[]]; try done.
    + intros _. left. by eexists.
    + destruct retry as [v2|[]]; try done.
      intros [= ->]. right. by eexists.
Qed.

(** C5. When the first evaluation raises a [NameError], the expression is
    evaluated again in the scope of the root's syntax object: a value
    returned by the retry is the result, a [NameError] of the retry is
    raised as a [NameError], and [is_local_match] raises a [NameError]
    in no other case. *)
Theorem name_error_retries_at_root (σ : store) (root self : pattern)
    (world target_node : tnode) :
  let first :=
    eval_or_true eval_expr σ (psyntax self) (constraint_of self) world target_node in
  let retry :=
    eval_or_true eval_expr σ (psyntax root) (constraint_of self) world target_node in
  (∀ msg, first = Raise (NameError msg) →
     (∀ v, retry = Return v →
           is_local_match eval_expr σ root self world target_node = Return v)
     ∧ (∀ msg', retry = Raise (NameError msg') →
                is_local_match eval_expr σ root self world target_node
                = Raise (NameError failed_msg)))
  ∧ (∀ msg, is_local_match eval_expr σ root self world target_node
            = Raise (NameError msg) →
       ∃ msg1 msg2, first = Raise (NameError msg1)
                    ∧ retry = Raise (NameError msg2)).
Proof.
  intros first retry. unfold TreePattern.is_local_match.
  fold first. fold retry. split.
  - intros msg ->. split.
    + by intros v ->.
    + by intros msg' ->.
  - intros msg. destruct first as [v|[]] eqn:E1; try done.
    destruct retry as [v|[]] eqn:E2; try done. eauto.
Qed.

(** *** Literal names *)

Definition plain_string (s : string) : Prop :=
  ∀ a, contains_char a s = true → plain_char a = true.

Lemma plain_string_tail (a : ascii) (s : string) :
  plain_string (String a s) → plain_char a = true ∧ plain_string s.
Proof.
  intros H. split.
  - apply H. simpl. by rewrite Ascii.eqb_refl.
  - intros b Hb. apply H. simpl. rewrite Hb. by destruct (Ascii.eqb a b).
Qed.

Lemma literal_body_plain (s : string) :
  plain_string s → literal_body (s ++ String dquote EmptyString) = Some s.
Proof.
  induction s as [|a s IH]; intros Hs.
  - reflexivity.
  - apply plain_string_tail in Hs as [Ha Hs]. simpl.
    assert (Ascii.eqb a dquote = false) as ->.
    { unfold plain_char in Ha. destruct (Ascii.eqb a dquote); [|done].
      simpl in Ha. by rewrite andb_false_r in Ha. }
    assert (Ascii.eqb a backslash = false) as ->.
    { unfold plain_char in Ha. destruct (Ascii.eqb a backslash); [|done].
      simpl in Ha. by rewrite andb_false_r in Ha. }
    rewrite Ha, (IH Hs). reflexivity.
Qed.

Lemma strip_prefix_app (pre s : string) :
  strip_prefix pre (pre ++ s) = Some s.
Proof.
  induction pre as [|a pre IH]; simpl.
  - by destruct s.
  - by rewrite Ascii.eqb_refl.
Qed.

(** For a name made of plain characters, with no self-reference and other
    than the wildcard, the local evaluation is the comparison of the
    target's name with the name of the pattern node. *)
Lemma is_local_match_plain_name (σ : store) (root self : pattern)
    (world target_node : tnode) :
  pname self ≠ EmptyString →
  contains_char at_sign (pname self) = false →
  pname self ≠ "*" →
  plain_string (pname self) →
  is_local_match eval_expr σ root self world target_node
  = Return (VBool (String.eqb (name target_node) (pname self))).
Proof.
  intros Hne Hat Hstar Hplain.
  unfold TreePattern.is_local_match, TreePattern.eval_or_true, constraint_of.
  apply String.eqb_neq in Hne. rewrite Hne, Hat.
  assert (String.eqb "*" (pname self) = false) as ->.
  { apply String.eqb_neq. congruence. }
  assert (String.eqb
            (name_eq_prefix ++ pname self ++ String dquote EmptyString)
            EmptyString = false) as -> by done.
  unfold py_eval, name_literal.
  rewrite strip_prefix_app. simpl.
  by rewrite (literal_body_plain _ Hplain).
Qed.

Definition two_backslashes : string :=
  String backslash (String backslash EmptyString).

(** C6 (the code departs from it). The name is pasted between double
    quotes into the expression that is evaluated, so it is read as a
    string literal: the two-character name made of two backslashes
    denotes the single backslash. A target node of that very name is
    rejected, and a target node named with one backslash is accepted. *)
Theorem literal_name_is_unescaped (σ : store) (root : pattern)
    (world : tnode) :
  let self := PNode two_backslashes 0 [] in
  contains_char at_sign (pname self) = false
  ∧ is_local_match eval_expr σ root self world
      (TNode 1 two_backslashes None None [])
    = Return (VBool false)
  ∧ is_local_match eval_expr σ root self world
      (TNode 1 (String backslash EmptyString) None None [])
    = Return (VBool true).
Proof. repeat split. Qed.

End local_match.

(** A scope in which the expression [@.name] evaluates to the name of the
    target node, a string. *)
Definition eval_name (syntax : nat) (bound : option TreePatternCache.t)
    (constraint : string) (world target_node : tnode) : result pyval :=
  if String.eqb constraint "__target_node.name"
  then Return (VStr (name target_node))
  else Raise SyntaxError.

Definition name_pattern : pattern := PNode "@.name" 0 [].
Definition node_A : tnode := TNode 1 "A" None None [].

(** C4 (as stated, refuted). The expression [@.name] evaluates to the string
    ["A"] on a node named [A]; [is_local_match] returns that string and
    raises nothing. *)
Lemma is_local_match_non_boolean :
  TreePattern.eval_or_true eval_name ∅ (psyntax name_pattern)
    (TreePattern.constraint_of name_pattern) node_A node_A
  = Return (VStr "A")
  ∧ is_bool (VStr "A") = false
  ∧ TreePattern.is_local_match eval_name ∅ name_pattern name_pattern
      node_A node_A = Return (VStr "A").
Proof. repeat split. Qed.

Lemma is_local_match_returns_value_witness :
  TreePattern.is_local_match eval_name ∅ name_pattern name_pattern
    node_A node_A = Return (VStr "A").
Proof.
  pose proof (is_local_match_returns_value eval_name ∅ name_pattern
                name_pattern node_A node_A) as H.
  cbv zeta in H. destruct H as (H & _). apply H. reflexivity.
Defined.

(** A pattern whose root syntax object [0] binds [helper] while the syntax
    object [1] of its child does not. *)
Definition eval_helper (syntax : nat) (bound : option TreePatternCache.t)
    (constraint : string) (world target_node : tnode) : result pyval :=
  if String.eqb constraint "helper(__target_node)" then
    if Nat.eqb syntax 0 then Return (VBool true)
    else Raise (NameError "helper")
  else Raise SyntaxError.

Definition helper_child : pattern := PNode "helper(@)" 1 [].
Definition helper_root : pattern := PNode EmptyString 0 [helper_child].

Lemma name_error_retries_at_root_witness :
  TreePattern.eval_or_true eval_helper ∅ (psyntax helper_child)
    (TreePattern.constraint_of helper_child) node_A node_A
  = Raise (NameError "helper")
  ∧ TreePattern.is_local_match eval_helper ∅ helper_root helper_child
      node_A node_A = Return (VBool true).
Proof.
  split; [reflexivity|].
  apply (name_error_retries_at_root eval_helper ∅ helper_root helper_child
           node_A node_A) with (msg := "helper"); reflexivity.
Defined.

(** ** The store along [match] *)

Section match_store.
Import TreePattern.

Variable eval_expr :
  nat → option TreePatternCache.t → string → tnode → tnode → result pyval.
Variables (root : pattern) (world : tnode).
Variable cache : option TreePatternCache.t.

Lemma set_cache_lookup (σ : store) (s : nat) (c : option TreePatternCache.t) :
  set_cache σ s c !! s = c.
Proof.
  destruct c; simpl; [apply lookup_insert_eq | apply lookup_delete_eq].
Qed.

Lemma set_cache_lookup_ne (σ : store) (s s' : nat)
    (c : option TreePatternCache.t) :
  s ≠ s' → set_cache σ s c !! s' = σ !! s'.
Proof.
  intros Hne.
  destruct c; simpl; [by apply lookup_insert_ne | by apply lookup_delete_ne].
Qed.

Lemma set_cache_keeps (σ : store) (s s' : nat) :
  σ !! s' = cache → set_cache σ s cache !! s' = cache.
Proof.
  intros H. destruct (decide (s = s')) as [->|Hne].
  - apply set_cache_lookup.
  - by rewrite set_cache_lookup_ne.
Qed.

Lemma set_cache_agree (σa σb : store) (s r : nat) :
  σa !! r = σb !! r →
  set_cache σa s cache !! r = set_cache σb s cache !! r.
Proof.
  intros H. destruct (decide (s = r)) as [->|Hne].
  - by rewrite !set_cache_lookup.
  - by rewrite !set_cache_lookup_ne.
Qed.

(** [is_local_match] reads the store at the syntax object of the node and
    at the syntax object of the root, nowhere else. *)
Lemma is_local_match_ext (σa σb : store) (self : pattern) (node : tnode) :
  σa !! psyntax self = σb !! psyntax self →
  σa !! psyntax root = σb !! psyntax root →
  is_local_match eval_expr σa root self world node
  = is_local_match eval_expr σb root self world node.
Proof.
  intros Hs Hr. unfold is_local_match, eval_or_true. by rewrite Hs, Hr.
Qed.

(** A set of states the calls of [match] keep the store in: [keeps s σ σ']
    when a binding of [s] to the cache argument survives. *)
Definition keeps (s : nat) (f : store → store * result pyval) : Prop :=
  ∀ σ, σ !! s = cache → (f σ).1 !! s = cache.

(** Two runs from stores that agree on the syntax object [r] return the
    same value and still agree on [r]. *)
Definition respects (r : nat) (f : store → store * result pyval) : Prop :=
  ∀ σa σb, σa !! r = σb !! r →
    (f σa).2 = (f σb).2 ∧ (f σa).1 !! r = (f σb).1 !! r.

Section loops.
Variable child_match : pattern → tnode → store → store * result pyval.
Variable s : nat.

Lemma match_children_keeps (ps : list pattern) :
  Forall (λ p, ∀ t, keeps s (child_match p t)) ps →
  ∀ candidate i st, keeps s (match_children child_match ps candidate i st).
Proof.
  induction 1 as [|p ps Hp _ IH]; intros candidate i st σ Hσ; simpl.
  - done.
  - destruct (candidate !! i) as [t|]; [|done].
    specialize (Hp t σ Hσ).
    destruct (child_match p t σ) as [σ' [v|e]]; simpl in *; [|done].
    destruct (and_unless_none st v); simpl; [|done].
    by apply IH.
Qed.

Lemma match_candidates_keeps (ps : list pattern) :
  Forall (λ p, ∀ t, keeps s (child_match p t)) ps →
  ∀ candidates st, keeps s (match_candidates child_match ps candidates st).
Proof.
  intros Hps candidates. induction candidates as [|c candidates IH];
    intros st σ Hσ; simpl.
  - done.
  - pose proof (match_children_keeps ps Hps c 0 (VBool true) σ Hσ) as Hc.
    destruct (match_children child_match ps c 0 (VBool true) σ)
      as [σ' [v|e]]; simpl in *; [|done].
    destruct (py_truthy v); simpl; [done|]. by apply IH.
Qed.

Lemma match_children_respects (ps : list pattern) :
  Forall (λ p, ∀ t, respects s (child_match p t)) ps →
  ∀ candidate i st, respects s (match_children child_match ps candidate i st).
Proof.
  induction 1 as [|p ps Hp _ IH]; intros candidate i st σa σb Hσ; simpl.
  - done.
  - destruct (candidate !! i) as [t|]; [|done].
    destruct (Hp t σa σb Hσ) as [Hv Hs].
    destruct (child_match p t σa) as [σa' ra], (child_match p t σb)
      as [σb' rb]; simpl in *. subst rb.
    destruct ra as [v|e]; [|done].
    destruct (and_unless_none st v); simpl; [|done].
    by apply IH.
Qed.

Lemma match_candidates_respects (ps : list pattern) :
  Forall (λ p, ∀ t, respects s (child_match p t)) ps →
  ∀ candidates st,
    respects s (match_candidates child_match ps candidates st).
Proof.
  intros Hps candidates. induction candidates as [|c candidates IH];
    intros st σa σb Hσ; simpl.
  - done.
  - destruct (match_children_respects ps Hps c 0 (VBool true) σa σb Hσ)
      as [Hv Hs].
    destruct (match_children child_match ps c 0 (VBool true) σa)
      as [σa' ra], (match_children child_match ps c 0 (VBool true) σb)
      as [σb' rb]; simpl in *. subst rb.
    destruct ra as [v|e]; [|done].
    destruct (py_truthy v); simpl; [done|]. by apply IH.
Qed.
End loops.

(** One step of [match]. *)
Lemma match_unfold (self : pattern) (node : tnode) (σ : store) :
  match_ eval_expr root self world node cache σ =
  let σ := set_cache σ (psyntax self) cache in
  match is_local_match eval_expr σ root self world node with
  | Raise e => (σ, Raise e)
  | Return status =>
      if py_truthy status && bool_decide (pchildren self ≠ []) then
        if bool_decide (length (pchildren self) ≤ length (children node))%nat
        then
          match_candidates
            (λ p t σ, match_ eval_expr root p world t cache σ)
            (pchildren self) (itertools_permutations (children node))
            status σ
        else (σ, Return (VBool false))
      else (σ, Return status)
  end.
Proof. by destruct self. Qed.

(** A binding to the cache argument survives a call of [match]. *)
Lemma match_keeps (s : nat) (self : pattern) (node : tnode) :
  keeps s (match_ eval_expr root self world node cache).
Proof.
  revert node. induction self as [n sy cs IH] using pattern_ind'.
  intros node σ Hσ. rewrite match_unfold. cbv zeta.
  pose proof (set_cache_keeps σ (psyntax (PNode n sy cs)) s Hσ) as H1.
  destruct (is_local_match _ _ _ _ _ _) as [status|e]; [|done].
  destruct (_ && _); [|done].
  destruct (bool_decide _); [|done].
  by apply match_candidates_keeps.
Qed.

(** When [match] returns, the syntax object of the pattern node it was
    called on is bound to the cache argument. *)
Lemma match_leaves_bound (self : pattern) (node : tnode) (σ : store) :
  (match_ eval_expr root self world node cache σ).1 !! psyntax self = cache.
Proof.
  rewrite match_unfold. cbv zeta.
  pose proof (set_cache_lookup σ (psyntax self) cache) as H1.
  destruct (is_local_match _ _ _ _ _ _) as [status|e]; [|done].
  destruct (_ && _); [|done].
  destruct (bool_decide _); [|done].
  apply match_candidates_keeps; [|done].
  apply Forall_forall. intros p _ t. apply match_keeps.
Qed.

(** The value of [match] depends on the store through the binding of the
    root's syntax object only. *)
Lemma match_respects (self : pattern) (node : tnode) :
  respects (psyntax root) (match_ eval_expr root self world node cache).
Proof.
  revert node. induction self as [n sy cs IH] using pattern_ind'.
  intros node σa σb Hσ. rewrite !match_unfold. cbv zeta.
  pose proof (set_cache_agree σa σb sy _ Hσ) as Hr.
  cbn [psyntax pchildren].
  rewrite (is_local_match_ext (set_cache σa sy cache) (set_cache σb sy cache)
             (PNode n sy cs) node); [|by rewrite !set_cache_lookup|done].
  destruct (is_local_match _ _ _ _ _ _) as [status|e]; [|done].
  destruct (_ && _); [|done].
  destruct (bool_decide _); [|done].
  by apply match_candidates_respects.
Qed.

(** Called on a node that shares the syntax object of the root, as the
    root itself does, [match] returns a value that does not depend on the
    store. *)
Lemma match_value_indep (self : pattern) (node : tnode) (σ σ' : store) :
  psyntax self = psyntax root →
  (match_ eval_expr root self world node cache σ).2
  = (match_ eval_expr root self world node cache σ').2.
Proof.
  intros Hroot. rewrite !match_unfold. cbv zeta.
  set (σa := set_cache σ (psyntax self) cache).
  set (σb := set_cache σ' (psyntax self) cache).
  assert (Hs : σa !! psyntax self = σb !! psyntax self)
    by (unfold σa, σb; by rewrite !set_cache_lookup).
  assert (Hr : σa !! psyntax root = σb !! psyntax root)
    by by rewrite <-Hroot.
  rewrite (is_local_match_ext σa σb self node Hs Hr).
  destruct (is_local_match _ _ _ _ _ _) as [status|e]; [|done].
  destruct (_ && _); [|done].
  destruct (bool_decide _); [|done].
  refine (proj1 (match_candidates_respects _ (psyntax root) _ _ _ _
                   σa σb Hr)).
  apply Forall_forall. intros p _ t. apply match_respects.
Qed.

End match_store.

(** ** find_match, plain mode *)

Section plain_mode.
Import TreePattern.

Variable eval_expr :
  nat → option TreePatternCache.t → string → tnode → tnode → result pyval.
Variables (root self : pattern) (tree : tnode).
Variable cache : option TreePatternCache.t.
Hypothesis Hroot : psyntax self = psyntax root.

(** The anchored match at a node of the tree. *)
Definition anchored (n : tnode) : result pyval :=
  (match_ eval_expr root self tree n cache ∅).2.

(** The anchored match returns, resp. returns a true value. *)
Definition returns (n : tnode) : Prop := ∃ v, anchored n = Return v.

Definition succeeds (n : tnode) : bool :=
  match anchored n with
  | Return v => py_truthy v
  | Raise _ => false
  end.

Lemma match_anchored (n : tnode) (σ : store) :
  ∃ σ', match_ eval_expr root self tree n cache σ = (σ', anchored n).
Proof.
  unfold anchored.
  rewrite <-(match_value_indep eval_expr root tree cache self n σ ∅ Hroot).
  destruct (match_ eval_expr root self tree n cache σ) as [σ' r]. eauto.
Qed.

Lemma plain_loop_cons (maxhits : option Z) (node : tnode)
    (nodes : list tnode) (num_hits : nat) (σ : store) (v : pyval) :
  anchored node = Return v →
  ∃ σ',
    plain_loop eval_expr root self tree maxhits cache (node :: nodes)
      num_hits σ
    = let num_hits' := if py_truthy v then num_hits + 1 else num_hits in
      let rest :=
        if reached maxhits num_hits' then Search σ' tree [] (Return ())
        else plain_loop eval_expr root self tree maxhits cache nodes
               num_hits' σ' in
      if py_truthy v
      then Search (final_store rest) tree (node :: yielded rest)
             (outcome rest)
      else rest.
Proof.
  intros Hv. destruct (match_anchored node σ) as [σ' Hm].
  exists σ'. simpl. by rewrite Hm, Hv.
Qed.

Lemma filter_succeeds_cons (node : tnode) (nodes : list tnode) (v : pyval) :
  anchored node = Return v →
  filter (λ n, succeeds n = true) (node :: nodes)
  = if py_truthy v then node :: filter (λ n, succeeds n = true) nodes
    else filter (λ n, succeeds n = true) nodes.
Proof.
  intros Hv. rewrite filter_cons.
  assert (succeeds node = py_truthy v) as Hs
    by (unfold succeeds; by rewrite Hv).
  destruct (decide (succeeds node = true)) as [H|H]; rewrite Hs in H;
    by destruct (py_truthy v).
Qed.

(** Without a bound, every node is tested. *)
Lemma plain_loop_unbounded (nodes : list tnode) (num_hits : nat)
    (σ : store) :
  (∀ n, n ∈ nodes → returns n) →
  let res := plain_loop eval_expr root self tree None cache nodes
               num_hits σ in
  yielded res = filter (λ n, succeeds n = true) nodes
  ∧ outcome res = Return ().
Proof.
  revert num_hits σ. induction nodes as [|node nodes IH];
    intros num_hits σ Hret; [done|].
  destruct (Hret node) as [v Hv]; [left|].
  destruct (plain_loop_cons None node nodes num_hits σ v Hv) as [σ' ->].
  cbv zeta. unfold reached. rewrite (filter_succeeds_cons _ _ _ Hv).
  edestruct (IH (if py_truthy v then num_hits + 1 else num_hits)%nat σ')
    as [Hy Ho]; [intros; apply Hret; by right|].
  destruct (py_truthy v); simpl; by rewrite Hy, Ho.
Qed.

(** With a bound not reached yet, the nodes yielded are the first
    successes, up to the bound. *)
Lemma plain_loop_bounded (m : Z) (nodes : list tnode) (num_hits : nat)
    (σ : store) :
  (∀ n, n ∈ nodes → returns n) →
  (Z.of_nat num_hits < m)%Z →
  let res := plain_loop eval_expr root self tree (Some m) cache nodes
               num_hits σ in
  yielded res
  = take (Z.to_nat m - num_hits) (filter (λ n, succeeds n = true) nodes)
  ∧ outcome res = Return ().
Proof.
  revert num_hits σ. induction nodes as [|node nodes IH];
    intros num_hits σ Hret Hlt.
  { cbv zeta. split; [|done]. rewrite filter_nil. by rewrite take_nil. }
  destruct (Hret node) as [v Hv]; [left|].
  destruct (plain_loop_cons (Some m) node nodes num_hits σ v Hv) as [σ' ->].
  cbv zeta. unfold reached. rewrite (filter_succeeds_cons _ _ _ Hv).
  assert (Hret' : ∀ n, n ∈ nodes → returns n)
    by (intros; apply Hret; by right).
  destruct (py_truthy v); simpl.
  - replace (Z.to_nat m - num_hits)%nat
      with (S (Z.to_nat m - (num_hits + 1)))%nat by lia.
    destruct (Z.leb_spec m (Z.of_nat (num_hits + 1))) as [Hle|Hgt]; simpl.
    + replace (Z.to_nat m - (num_hits + 1))%nat with 0%nat by lia.
      by rewrite take_0.
    + destruct (IH (num_hits + 1)%nat σ' Hret') as [Hy Ho]; [lia|].
      by rewrite Hy, Ho.
  - destruct (Z.leb_spec m (Z.of_nat num_hits)) as [Hle|Hgt]; [lia|].
    by apply IH.
Qed.

(** The node at which the bound is reached is the last one tested. *)
Lemma plain_loop_stops (m : Z) (pre : list tnode) (n : tnode)
    (post : list tnode) (num_hits : nat) (σ : store) :
  (∀ x, x ∈ pre → returns x) →
  succeeds n = true →
  m = Z.of_nat
        (num_hits + length (filter (λ x, succeeds x = true) pre) + 1) →
  let res := plain_loop eval_expr root self tree (Some m) cache
               (pre ++ n :: post) num_hits σ in
  yielded res = filter (λ x, succeeds x = true) pre ++ [n]
  ∧ outcome res = Return ().
Proof.
  revert num_hits σ. induction pre as [|x pre IH];
    intros num_hits σ Hret Hn Hm.
  - simpl in Hm. unfold succeeds in Hn.
    destruct (anchored n) as [v|] eqn:Hv; [|done].
    destruct (plain_loop_cons (Some m) n post num_hits σ v Hv) as [σ' Hl].
    simpl app. rewrite Hl. cbv zeta. rewrite Hn. unfold reached.
    destruct (Z.leb_spec m (Z.of_nat (num_hits + 1))) as [Hle|Hgt]; [|lia].
    done.
  - destruct (Hret x) as [v Hv]; [left|].
    assert (Hret' : ∀ y, y ∈ pre → returns y)
      by (intros; apply Hret; by right).
    rewrite <-app_comm_cons.
    destruct (plain_loop_cons (Some m) x (pre ++ n :: post) num_hits σ v Hv)
      as [σ' ->].
    cbv zeta. unfold reached.
    rewrite (filter_succeeds_cons _ _ _ Hv) in Hm |- *.
    destruct (py_truthy v); simpl.
    + simpl in Hm.
      destruct (Z.leb_spec m (Z.of_nat (num_hits + 1))) as [Hle|Hgt];
        [lia|].
      destruct (IH (num_hits + 1)%nat σ' Hret' Hn) as [Hy Ho]; [lia|].
      simpl. by rewrite Hy, Ho.
    + destruct (Z.leb_spec m (Z.of_nat num_hits)) as [Hle|Hgt]; [lia|].
      by apply IH.
Qed.

(** A bound of zero or less is reached at once: the first node of the
    traversal is the only one tested. *)
Lemma plain_loop_nonpositive (m : Z) (node : tnode) (nodes : list tnode)
    (σ : store) :
  (m ≤ 0)%Z → returns node →
  let res := plain_loop eval_expr root self tree (Some m) cache
               (node :: nodes) 0 σ in
  yielded res = filter (λ n, succeeds n = true) [node]
  ∧ outcome res = Return ().
Proof.
  intros Hm [v Hv].
  destruct (plain_loop_cons (Some m) node nodes 0 σ v Hv) as [σ' ->].
  cbv zeta. unfold reached. rewrite (filter_succeeds_cons _ _ _ Hv).
  destruct (py_truthy v); simpl.
  - destruct (Z.leb_spec m (Z.of_nat 1)) as [Hle|Hgt]; [done|lia].
  - destruct (Z.leb_spec m (Z.of_nat 0)) as [Hle|Hgt]; [done|lia].
Qed.

(** C7 (as amended). In plain mode, called on the root of the pattern,
    [find_match] yields the nodes at which the anchored match succeeds, in
    the order of the chosen traversal: all of them when [maxhits] is
    [None], the first [k] of them when [maxhits] is [k ≥ 1]; the node that
    brings the number of hits to [maxhits] is the last node tested,
    whatever comes after it in the traversal. The bound is tested after a
    node has been tested, so with [maxhits ≤ 0] the first node of the
    traversal is still tested, and yielded when the match succeeds, and
    it is the only one. *)
Theorem find_match_plain (budget fuel : nat) (target_traversal : strategy)
    (match_type : option string) (σ : store) :
  match_type ≠ Some "cascade" →
  let nodes := traverse target_traversal tree in
  let run maxhits :=
    find_match eval_expr budget fuel root self tree maxhits cache
      target_traversal match_type σ in
  ((∀ n, n ∈ nodes → returns n) →
     ∃ res, run None = Some res
            ∧ yielded res = filter (λ n, succeeds n = true) nodes
            ∧ outcome res = Return ())
  ∧ (∀ k, (1 ≤ k)%nat → (∀ n, n ∈ nodes → returns n) →
       ∃ res, run (Some (Z.of_nat k)) = Some res
              ∧ yielded res
                = take k (filter (λ n, succeeds n = true) nodes)
              ∧ outcome res = Return ())
  ∧ (∀ k pre n post,
       nodes = pre ++ n :: post →
       (∀ x, x ∈ pre → returns x) →
       succeeds n = true →
       k = (length (filter (λ x, succeeds x = true) pre) + 1)%nat →
       ∃ res, run (Some (Z.of_nat k)) = Some res
              ∧ yielded res = filter (λ x, succeeds x = true) pre ++ [n]
              ∧ outcome res = Return ())
  ∧ (∀ m node rest,
       (m ≤ 0)%Z →
       nodes = node :: rest →
       returns node →
       ∃ res, run (Some m) = Some res
              ∧ yielded res = filter (λ x, succeeds x = true) [node]
              ∧ outcome res = Return ()).
Proof.
  intros Hplain nodes run. unfold run, find_match.
  rewrite bool_decide_eq_false_2 by done.
  split; [|split; [|split]].
  - intros Hret. eexists. split; [done|].
    by apply plain_loop_unbounded.
  - intros k Hk Hret. eexists. split; [done|].
    destruct (plain_loop_bounded (Z.of_nat k) nodes 0 σ Hret) as [Hy Ho];
      [lia|].
    fold nodes. rewrite Hy, Ho. split; [|done]. f_equal. lia.
  - intros k pre n post Hnodes Hret Hn Hk. eexists. split; [done|].
    fold nodes. rewrite Hnodes. apply plain_loop_stops; [done|done|].
    rewrite Hk. f_equal.
  - intros m node rest Hm Hnodes Hret. eexists. split; [done|].
    fold nodes. rewrite Hnodes. by apply plain_loop_nonpositive.
Qed.

End plain_mode.

(** ** cascade_match: the recursion budget *)

(** The nodes of a pattern, the node itself first. *)
Fixpoint pnodes (p : pattern) : list pattern :=
  p :: (fix go (cs : list pattern) : list pattern :=
          match cs with
          | [] => []
          | c :: cs' => pnodes c ++ go cs'
          end) (pchildren p).

Lemma pnodes_eq (p : pattern) :
  pnodes p = p :: mjoin (pnodes <$> pchildren p).
Proof.
  destruct p as [n s cs]. simpl. f_equal.
  induction cs as [|c cs IH]; simpl; [done|]. by rewrite IH.
Qed.

Lemma pheight_eq (p : pattern) :
  pheight p = S (foldr (λ c h, pheight c `max` h) 0 (pchildren p)).
Proof.
  destruct p as [n s cs]. simpl. f_equal.
Qed.

Lemma pnodes_self (p : pattern) : p ∈ pnodes p.
Proof. rewrite pnodes_eq. left. Qed.

Lemma pnodes_child (p c q : pattern) :
  c ∈ pchildren p → q ∈ pnodes c → q ∈ pnodes p.
Proof.
  intros Hc Hq. rewrite pnodes_eq. right.
  apply list_elem_of_join. exists (pnodes c). split; [done|].
  apply list_elem_of_fmap. by exists c.
Qed.

Lemma pnodes_trans (p q r : pattern) :
  q ∈ pnodes p → r ∈ pnodes q → r ∈ pnodes p.
Proof.
  revert q r. induction p as [n s cs IH] using pattern_ind'.
  intros q r Hq Hr. rewrite pnodes_eq in Hq.
  apply elem_of_cons in Hq as [->|Hq]; [done|].
  apply list_elem_of_join in Hq as (l & Hql & Hl).
  apply list_elem_of_fmap in Hl as (c & -> & Hc).
  apply (pnodes_child _ c); [done|].
  rewrite Forall_forall in IH. by apply (IH c Hc q).
Qed.

Lemma pheight_child (p c : pattern) :
  c ∈ pchildren p → (pheight c < pheight p)%nat.
Proof.
  intros Hc. rewrite (pheight_eq p).
  induction Hc as [c cs|c c' cs _ IH]; simpl; lia.
Qed.

Lemma pheight_sub (p q : pattern) :
  q ∈ pnodes p → (pheight q ≤ pheight p)%nat.
Proof.
  revert q. induction p as [n s cs IH] using pattern_ind'.
  intros q Hq. rewrite pnodes_eq in Hq.
  apply elem_of_cons in Hq as [->|Hq]; [done|].
  apply list_elem_of_join in Hq as (l & Hql & Hl).
  apply list_elem_of_fmap in Hl as (c & -> & Hc).
  rewrite Forall_forall in IH. specialize (IH c Hc q Hql).
  pose proof (pheight_child (PNode n s cs) c Hc). lia.
Qed.

Section cascade_budget.
Import TreePattern.

Variable eval_expr :
  nat → option TreePatternCache.t → string → tnode → tnode → result pyval.
Variables (root : pattern) (world : tnode).
Variable cache : option TreePatternCache.t.

(** A computation that never exhausts the budget, and whose returned
    values satisfy [Q]. *)
Definition total_with {A : Type} (Q : A → Prop) (m : M A) : Prop :=
  ∀ σ, ∃ σ' r, m σ = Some (σ', r) ∧ ∀ a, r = Return a → Q a.

Lemma ret_total {A : Type} (Q : A → Prop) (a : A) :
  Q a → total_with Q (ret a).
Proof. intros Ha σ. eexists _, _. split; [done|]. by intros ? [= <-]. Qed.

Lemma raise_total {A : Type} (Q : A → Prop) (e : exn) :
  total_with Q (raise e).
Proof. intros σ. eexists _, _. split; [done|]. by intros ? [=]. Qed.

Lemma lift_total {A : Type} (r : result A) :
  total_with (λ _, True) (lift r).
Proof. intros σ. eexists _, _. split; [done|]. done. Qed.

Lemma bindM_total {A B : Type} (Q : A → Prop) (R : B → Prop)
    (m : M A) (k : A → M B) :
  total_with Q m → (∀ a, Q a → total_with R (k a)) →
  total_with R (bindM m k).
Proof.
  intros Hm Hk σ. unfold bindM.
  destruct (Hm σ) as (σ' & r & -> & Hr).
  destruct r as [a|e].
  - apply Hk. by apply Hr.
  - eexists _, _. split; [done|]. by intros ? [=].
Qed.

Lemma total_weaken {A : Type} (Q R : A → Prop) (m : M A) :
  (∀ a, Q a → R a) → total_with Q m → total_with R m.
Proof.
  intros HQR Hm σ. destruct (Hm σ) as (σ' & r & -> & Hr).
  eexists _, _. split; [done|]. intros a Ha. by apply HQR, Hr.
Qed.

(** The pattern node of a returned triple is a node of [p]. *)
Definition lands_in (p : pattern) (r : cres) : Prop := r.1.2 ∈ pnodes p.

Section loops.
Variable child_cascade : pattern → tnode → M cres.
Variable fuel : nat.
Hypothesis Hchild :
  ∀ p t, (pheight p ≤ fuel)%nat →
         total_with (lands_in p) (child_cascade p t).

Lemma cascade_loop_total (target_at : nat → option tnode)
    (update : pyval → pyval → result pyval) (todo : nat) :
  ∀ i self sub_status sub_nodes,
    (pheight self ≤ S fuel)%nat →
    total_with (lands_in self)
      (cascade_loop child_cascade target_at update todo i self sub_status
         sub_nodes).
Proof.
  induction todo as [|todo IH]; intros i self st ns Hh; simpl.
  - apply ret_total. apply pnodes_self.
  - destruct (pchildren self !! i) as [p|] eqn:Hp;
      [|apply raise_total].
    destruct (target_at i) as [t|]; [|apply raise_total].
    assert (Hpc : p ∈ pchildren self) by by eapply list_elem_of_lookup_2.
    pose proof (pheight_child _ _ Hpc) as Hlt.
    apply (bindM_total (lands_in p)); [apply Hchild; lia|].
    intros r Hr.
    apply (bindM_total (λ _, True)); [apply lift_total|].
    intros st' _.
    assert (Hrp : r.1.2 ∈ pnodes self) by by apply (pnodes_child _ p).
    eapply total_weaken; [|apply IH].
    + intros a Ha. by apply (pnodes_trans _ r.1.2).
    + pose proof (pheight_sub p r.1.2 Hr). lia.
Qed.

Lemma cascade_candidates_total (candidates : list (list tnode)) :
  ∀ self status matched_nodes,
    (pheight self ≤ S fuel)%nat →
    total_with (lands_in self)
      (cascade_candidates child_cascade candidates self status
         matched_nodes).
Proof.
  induction candidates as [|c candidates IH]; intros self st ns Hh; simpl.
  - apply ret_total. apply pnodes_self.
  - apply (bindM_total (lands_in self)).
    { by apply cascade_loop_total. }
    intros r Hr. destruct (py_truthy r.1.1).
    + by apply ret_total.
    + pose proof (pheight_sub self r.1.2 Hr).
      eapply total_weaken; [|apply IH; lia].
      intros a Ha. by apply (pnodes_trans _ r.1.2).
Qed.

Lemma cascade_return_total (self : pattern) (r : cres) :
  lands_in self r → total_with (lands_in self) (cascade_return r).
Proof.
  intros Hr σ. eexists _, _. split; [done|]. by intros ? [= <-].
Qed.

Lemma cascade_body_total (self : pattern) (node : tnode) :
  (pheight self ≤ S fuel)%nat →
  total_with (lands_in self)
    (cascade_body eval_expr child_cascade root self world node cache).
Proof.
  intros Hh σ. unfold cascade_body.
  destruct (is_local_match _ _ _ _ _ _) as [status|e].
  2: { eexists _, _. split; [done|]. by intros ? [=]. }
  destruct (py_truthy status).
  2: { apply cascade_return_total, pnodes_self. }
  destruct (bool_decide (pchildren self ≠ [])).
  2: { apply cascade_return_total, pnodes_self. }
  destruct (bool_decide (_ ≤ _)%nat).
  - apply (bindM_total (lands_in self)).
    + by apply cascade_candidates_total.
    + intros r Hr. by apply cascade_return_total.
  - destruct (String.eqb _ _).
    + apply (bindM_total (lands_in self)).
      * by apply cascade_loop_total.
      * intros r Hr. by apply cascade_return_total.
    + apply cascade_return_total, pnodes_self.
Qed.
End loops.

(** The height of the pattern is budget enough: [cascade_match] returns
    or raises, and the pattern node it returns is a node of the pattern it
    was called on. *)
Lemma cascade_match_total (fuel : nat) :
  ∀ self node,
    (pheight self ≤ fuel)%nat →
    total_with (lands_in self)
      (cascade_match eval_expr fuel root self world node cache).
Proof.
  induction fuel as [|fuel IH]; intros self node Hh.
  - rewrite pheight_eq in Hh. lia.
  - simpl. apply (cascade_body_total _ fuel); [|done].
    intros p t Hp. by apply IH.
Qed.

(** A larger budget does not change what a computation produces. *)
Definition below {A : Type} (m m' : M A) : Prop :=
  ∀ σ x, m σ = Some x → m' σ = Some x.

Lemma below_refl {A : Type} (m : M A) : below m m.
Proof. by intros σ x. Qed.

Lemma bindM_below {A B : Type} (m m' : M A) (k k' : A → M B) :
  below m m' → (∀ a, below (k a) (k' a)) → below (bindM m k) (bindM m' k').
Proof.
  intros Hm Hk σ x. unfold bindM.
  destruct (m σ) as [[σ' r]|] eqn:E; [|done].
  rewrite (Hm σ _ E). destruct r; [apply Hk|done].
Qed.

Section below_loops.
Variables child child' : pattern → tnode → M cres.
Hypothesis Hchild : ∀ p t, below (child p t) (child' p t).

Lemma cascade_loop_below (target_at : nat → option tnode)
    (update : pyval → pyval → result pyval) (todo : nat) :
  ∀ i self sub_status sub_nodes,
    below (cascade_loop child target_at update todo i self sub_status
             sub_nodes)
      (cascade_loop child' target_at update todo i self sub_status
         sub_nodes).
Proof.
  induction todo as [|todo IH]; intros i self st ns; simpl.
  - apply below_refl.
  - destruct (pchildren self !! i); [|apply below_refl].
    destruct (target_at i); [|apply below_refl].
    apply bindM_below; [apply Hchild|].
    intros r. apply bindM_below; [apply below_refl|].
    intros st'. apply IH.
Qed.

Lemma cascade_candidates_below (candidates : list (list tnode)) :
  ∀ self status matched_nodes,
    below (cascade_candidates child candidates self status matched_nodes)
      (cascade_candidates child' candidates self status matched_nodes).
Proof.
  induction candidates as [|c candidates IH]; intros self st ns; simpl.
  - apply below_refl.
  - apply bindM_below; [apply cascade_loop_below|].
    intros r. destruct (py_truthy r.1.1); [apply below_refl|apply IH].
Qed.

Lemma cascade_body_below (self : pattern) (node : tnode) :
  below (cascade_body eval_expr child root self world node cache)
    (cascade_body eval_expr child' root self world node cache).
Proof.
  intros σ x. unfold cascade_body.
  destruct (is_local_match _ _ _ _ _ _) as [status|e]; [|done].
  destruct (py_truthy status); [|done].
  destruct (bool_decide (pchildren self ≠ [])); [|done].
  destruct (bool_decide (_ ≤ _)%nat).
  - apply bindM_below; [apply cascade_candidates_below|].
    intros r. apply below_refl.
  - destruct (String.eqb _ _); [|done].
    apply bindM_below; [apply cascade_loop_below|].
    intros r. apply below_refl.
Qed.
End below_loops.

Lemma cascade_match_mono (fuel fuel' : nat) (self : pattern) (node : tnode) :
  (fuel ≤ fuel')%nat →
  below (cascade_match eval_expr fuel root self world node cache)
    (cascade_match eval_expr fuel' root self world node cache).
Proof.
  revert fuel' self node. induction fuel as [|fuel IH];
    intros fuel' self node Hle; [by intros σ x|].
  destruct fuel' as [|fuel']; [lia|]. simpl.
  apply cascade_body_below. intros p t. apply IH. lia.
Qed.

End cascade_budget.

(** ** find_match, cascade mode *)

Section cascade_mode.
Import TreePattern.

Variable eval_expr :
  nat → option TreePatternCache.t → string → tnode → tnode → result pyval.
Variables (root self : pattern).
Variable cache : option TreePatternCache.t.











End cascade_mode.

(** ** Wildcards and the cache binding *)

Section wildcard_and_binding.
Import TreePattern.

Variable eval_expr :
  nat → option TreePatternCache.t → string → tnode → tnode → result pyval.
Variables (root : pattern) (world : tnode).
Variable cache : option TreePatternCache.t.

Lemma is_local_match_wildcard (σ : store) (self : pattern) (node : tnode) :
  pname self = "*" →
  is_local_match eval_expr σ root self world node = Return (VBool true).
Proof.
  intros Hn. unfold is_local_match, constraint_of. by rewrite Hn.
Qed.

Lemma cascade_match_unfold (fuel : nat) (self : pattern) (node : tnode) :
  cascade_match eval_expr (S fuel) root self world node cache
  = cascade_body eval_expr
      (λ p t, cascade_match eval_expr fuel root p world t cache)
      root self world node cache.
Proof. done. Qed.

(** C1 (as amended). A wildcard node with children [c :: cs], facing a
    target node with fewer children: [match] returns [False]; and
    [cascade_match] first matches the child [c] against the same target
    node, so that an exception of that recursion is the exception of the
    call and, when [c] is the only child, the call returns the pattern
    node and the matched nodes of that recursion with the status
    [True & st]. *)
Theorem wildcard_shortfall (fuel : nat) (self : pattern) (node : tnode)
    (σ : store) (c : pattern) (cs : list pattern) :
  pname self = "*" →
  pchildren self = c :: cs →
  (length (children node) < length (pchildren self))%nat →
  let σ1 := set_cache σ (psyntax self) cache in
  let child := cascade_match eval_expr fuel root c world node cache σ1 in
  match_ eval_expr root self world node cache σ = (σ1, Return (VBool false))
  ∧ (∀ σ' e, child = Some (σ', Raise e) →
       cascade_match eval_expr (S fuel) root self world node cache σ
       = Some (σ', Raise e))
  ∧ (cs = [] → ∀ σ' st p' ns,
       child = Some (σ', Return (st, p', ns)) →
       cascade_match eval_expr (S fuel) root self world node cache σ
       = match py_and (VBool true) st with
         | Raise e => Some (σ', Raise e)
         | Return st' =>
             Some (set_cache σ' (psyntax p') None, Return (st', p', ns))
         end).
Proof.
  intros Hname Hcs Hlen σ1 child.
  assert (Hlt : bool_decide
                  (length (pchildren self) ≤ length (children node))%nat
                = false) by (apply bool_decide_eq_false; lia).
  assert (Hne : bool_decide (pchildren self ≠ []) = true)
    by (apply bool_decide_eq_true; by rewrite Hcs).
  split; [|split].
  - rewrite match_unfold. cbv zeta. fold σ1.
    rewrite (is_local_match_wildcard σ1 self node Hname). simpl.
    by rewrite Hne, Hlt.
  - intros σ' e Hchild. rewrite cascade_match_unfold. unfold cascade_body.
    fold σ1. rewrite (is_local_match_wildcard σ1 self node Hname). simpl.
    rewrite Hne, Hlt, Hname. simpl. rewrite Hcs.
    unfold cascade_wildcard. simpl cascade_loop. rewrite Hcs. simpl.
    unfold bindM at 1 2. fold child. by rewrite Hchild.
  - intros -> σ' st p' ns Hchild. rewrite cascade_match_unfold.
    unfold cascade_body.
    fold σ1. rewrite (is_local_match_wildcard σ1 self node Hname). simpl.
    rewrite Hne, Hlt, Hname. simpl. rewrite Hcs.
    unfold cascade_wildcard. simpl cascade_loop. rewrite Hcs. simpl.
    unfold bindM at 1 2. fold child. rewrite Hchild. simpl.
    unfold bindM, lift. by destruct st.
Qed.

(** What [cascade_match] returns went through its last two statements. *)
Lemma cascade_return_clears (m : M cres) (k : cres → cres) (σ σ' : store)
    (r : cres) :
  bindM m (λ a, cascade_return (k a)) σ = Some (σ', Return r) →
  σ' !! psyntax r.1.2 = None.
Proof.
  unfold bindM, cascade_return.
  destruct (m σ) as [[σ2 [a|e]]|]; [|done..].
  intros [= <- <-]. apply (set_cache_lookup σ2 _ None).
Qed.

Lemma cascade_match_clears (fuel : nat) (self : pattern) (node : tnode)
    (σ σ' : store) (r : cres) :
  cascade_match eval_expr fuel root self world node cache σ
  = Some (σ', Return r) →
  σ' !! psyntax r.1.2 = None.
Proof.
  destruct fuel as [|fuel]; [done|]. rewrite cascade_match_unfold.
  unfold cascade_body.
  assert (Hret : ∀ σ0 a, cascade_return a σ0 = Some (σ', Return r) →
                         σ' !! psyntax r.1.2 = None).
  { unfold cascade_return. intros σ0 a [= <- <-].
    apply (set_cache_lookup σ0 _ None). }
  destruct (is_local_match _ _ _ _ _ _) as [status|e]; [|done].
  destruct (py_truthy status); [|apply Hret].
  destruct (bool_decide (pchildren self ≠ [])); [|apply Hret].
  destruct (bool_decide (_ ≤ _)%nat).
  - apply (cascade_return_clears _ (λ a, a)).
  - destruct (String.eqb _ _); [|apply Hret].
    apply (cascade_return_clears _ (λ a, (a.1.1, a.1.2, [] ++ a.2))).
Qed.

(** C3 (as amended). [match] binds the cache argument to the syntax object
    of the pattern node and leaves it bound when it returns or raises;
    [cascade_match] unbinds the syntax object of the pattern node it
    returns, which is the one it was called on when the nodes of the
    pattern share one syntax object; a [cascade_match] whose local
    evaluation raises leaves the cache argument bound. *)
Theorem cache_binding_after_call (self : pattern) (node : tnode)
    (σ : store) :
  (match_ eval_expr root self world node cache σ).1 !! psyntax self = cache
  ∧ (∀ fuel σ' st p' ns,
       cascade_match eval_expr fuel root self world node cache σ
       = Some (σ', Return (st, p', ns)) →
       σ' !! psyntax p' = None
       ∧ (Forall (λ q, psyntax q = psyntax self) (pnodes self) →
          σ' !! psyntax self = None))
  ∧ (∀ fuel e,
       is_local_match eval_expr (set_cache σ (psyntax self) cache) root
         self world node = Raise e →
       cascade_match eval_expr (S fuel) root self world node cache σ
       = Some (set_cache σ (psyntax self) cache, Raise e)
       ∧ set_cache σ (psyntax self) cache !! psyntax self = cache).
Proof.
  split; [|split].
  - apply match_leaves_bound.
  - intros fuel σ' st p' ns Hrun.
    pose proof (cascade_match_clears _ _ _ _ _ _ Hrun) as Hclear.
    split; [done|]. intros Hshared.
    assert (Hin : p' ∈ pnodes self).
    { pose proof (cascade_match_mono eval_expr root world cache fuel
                    (fuel `max` pheight self) self node ltac:(lia) σ _ Hrun)
        as Hbig.
      destruct (cascade_match_total eval_expr root world cache
                  (fuel `max` pheight self) self node ltac:(lia) σ)
        as (σ2 & r2 & Htot & Hland).
      rewrite Hbig in Htot. injection Htot as <- <-.
      apply (Hland _ eq_refl). }
    rewrite Forall_forall in Hshared. by rewrite <-(Hshared p' Hin).
  - intros fuel e Hraise. split; [|apply set_cache_lookup].
    rewrite cascade_match_unfold. unfold cascade_body. by rewrite Hraise.
Qed.

End wildcard_and_binding.

(** ** Concrete runs *)

Definition pattern_A : pattern := PNode "A" 0 [].
Definition wildcard_over_A : pattern := PNode "*" 0 [pattern_A].
Definition cache_A : TreePatternCache.t := TreePatternCache.init node_A.

(** A tree [(A, A)r] with two nodes named [A]. *)
Definition tree_AA : tnode :=
  TNode 0 "r" None None [TNode 1 "A" None None []; TNode 2 "A" None None []].

(** The pattern [(A, B)] under an unnamed root, and the targets [(A, B)C]
    and [(B, A)C]. *)
Definition pattern_AB : pattern :=
  PNode EmptyString 0 [PNode "A" 0 []; PNode "B" 0 []].
Definition tree_AB : tnode :=
  TNode 0 "C" None None [TNode 1 "A" None None []; TNode 2 "B" None None []].
Definition tree_BA : tnode :=
  TNode 0 "C" None None [TNode 2 "B" None None []; TNode 1 "A" None None []].


(** C1 (as stated, refuted). The wildcard [*] over the single child [A],
    matched by [match] against a leaf named [A]: the leaf has fewer
    children than the wildcard, the child [A] does match the leaf, and yet
    [match] returns [False]. *)
Lemma match_wildcard_fails_outright :
  (length (children node_A) < length (pchildren wildcard_over_A))%nat
  ∧ (TreePattern.match_ eval_name wildcard_over_A pattern_A node_A node_A
       None ∅).2 = Return (VBool true)
  ∧ (TreePattern.match_ eval_name wildcard_over_A wildcard_over_A node_A
       node_A None ∅).2 = Return (VBool false).
Proof. split; [simpl; lia|]. split; reflexivity. Qed.

Lemma wildcard_shortfall_witness :
  TreePattern.match_ eval_name wildcard_over_A wildcard_over_A node_A node_A
    None ∅
  = (set_cache ∅ 0 None, Return (VBool false))
  ∧ TreePattern.cascade_match eval_name 2 wildcard_over_A wildcard_over_A
      node_A node_A None ∅
    = Some (set_cache (set_cache (set_cache ∅ 0 None) 0 None) 0 None,
            Return (VBool true, pattern_A, [node_A])).
Proof.
  destruct (wildcard_shortfall eval_name wildcard_over_A node_A None 1
              wildcard_over_A node_A ∅ pattern_A [] eq_refl eq_refl
              ltac:(simpl; lia)) as (Hmatch & _ & Hone).
  split; [exact Hmatch|].
  exact (Hone eq_refl (set_cache (set_cache ∅ 0 None) 0 None) (VBool true)
           pattern_A [node_A] eq_refl).
Defined.

(** C3 (as stated, refuted). After [match] has returned, the syntax object
    of the pattern is still bound to the cache it was given; and a
    [cascade_match] whose evaluation raises leaves it bound as well. *)
Lemma match_leaves_cache_bound :
  (TreePattern.match_ eval_name pattern_A pattern_A node_A node_A
     (Some cache_A) ∅).2 = Return (VBool true)
  ∧ (TreePattern.match_ eval_name pattern_A pattern_A node_A node_A
       (Some cache_A) ∅).1 !! psyntax pattern_A = Some cache_A
  ∧ TreePattern.cascade_match eval_helper 1 helper_child helper_child
      node_A node_A (Some cache_A) ∅
    = Some (<[psyntax helper_child := cache_A]> ∅,
            Raise (NameError TreePattern.failed_msg)).
Proof. split; [reflexivity|]. split; [|reflexivity]. apply lookup_insert_eq. Qed.

Lemma cache_binding_after_call_witness :
  (TreePattern.match_ eval_name pattern_A pattern_A node_A node_A
     (Some cache_A) ∅).1 !! psyntax pattern_A = Some cache_A
  ∧ ∀ σ' st p' ns,
      TreePattern.cascade_match eval_name 1 pattern_A pattern_A node_A
        node_A (Some cache_A) ∅ = Some (σ', Return (st, p', ns)) →
      σ' !! psyntax p' = None.
Proof.
  destruct (cache_binding_after_call eval_name pattern_A node_A
              (Some cache_A) pattern_A node_A ∅) as (Hm & Hc & _).
  split; [exact Hm|].
  intros σ' st p' ns Hrun. exact (proj1 (Hc 1 σ' st p' ns Hrun)).
Defined.

Lemma find_match_plain_witness :
  ∃ res,
    TreePattern.find_match eval_name 0 0 pattern_A pattern_A tree_AA
      (Some (Z.of_nat 1)) None Preorder None ∅ = Some res
    ∧ TreePattern.yielded res
      = take 1 (filter (λ n, succeeds eval_name pattern_A pattern_A tree_AA
                               None n = true)
                  (traverse Preorder tree_AA))
    ∧ TreePattern.outcome res = Return ().
Proof.
  destruct (find_match_plain eval_name pattern_A pattern_A tree_AA None
              eq_refl 0 0 Preorder None ∅ ltac:(done)) as (_ & Hk & _).
  apply (Hk 1); [lia|].
  intros n Hn. simpl in Hn.
  repeat (apply elem_of_cons in Hn as [->|Hn]; [by eexists|]).
  by apply elem_of_nil in Hn.
Defined.

(** The pattern with the empty name: its constraint is empty, it matches
    every node. *)
Definition pattern_any : pattern := PNode EmptyString 0 [].

(** C7 (as stated, refuted). With [maxhits = 0] the number of hits has
    reached [maxhits] before any node is tested, and yet the root of the
    tree is tested and yielded: the bound is looked at only after a node
    has been tested. *)
Lemma find_match_plain_zero_maxhits :
  TreePattern.reached (Some 0%Z) 0 = true
  ∧ ∃ res,
      TreePattern.find_match eval_name 0 0 pattern_any pattern_any tree_AA
        (Some 0%Z) None Preorder None ∅ = Some res
      ∧ TreePattern.yielded res = [tree_AA]
      ∧ TreePattern.outcome res = Return ().
Proof. split; [reflexivity|]. eexists. split; [reflexivity|]. by split. Qed.

(** A scope in which every expression evaluates to [False]. *)
Definition eval_false (syntax : nat) (bound : option TreePatternCache.t)
    (constraint : string) (world target_node : tnode) : result pyval :=
  Return (VBool false).

Definition pattern_at : pattern := PNode "@" 0 [].






(** * Further properties *)

(** ** Helper predicates without a cache, and with a foreign cache *)

Section more_helpers.

Lemma all_strings_Some (l : list string) : all_strings (Some <$> l) = Some l.
Proof.
  induction l as [|x l IH]; [done|].
  change (all_strings (Some <$> x :: l))
    with (cons x <$> all_strings (Some <$> l)).
  by rewrite IH.
Qed.

Lemma getattr_name (ns : list tnode) :
  (λ n, getattr n "name") <$> ns = Some <$> (name <$> ns).
Proof. by rewrite <-list_fmap_compose. Qed.

(** Without a cache, [leaves] and [descendants] never raise: they return
    the names of the leaves, resp. of the node and all nodes below it, in
    sorted order. *)
Theorem leaves_descendants_sorted (target_node : tnode) :
  (∃ l, PatternSyntax.leaves None target_node = Return (Some <$> l)
        ∧ Sorted String.le l
        ∧ l ≡ₚ name <$> iter_leaves target_node)
  ∧ (∃ l, PatternSyntax.descendants None target_node = Return (Some <$> l)
          ∧ Sorted String.le l
          ∧ l ≡ₚ name <$> traverse Levelorder target_node).
Proof.
  split.
  - exists (merge_sort String.le (name <$> iter_leaves target_node)).
    split; [|split].
    + unfold PatternSyntax.leaves. simpl. unfold py_sorted.
      by rewrite getattr_name, all_strings_Some.
    + apply (Sorted_merge_sort String.le).
    + apply merge_sort_Permutation.
  - exists (merge_sort String.le (name <$> traverse Levelorder target_node)).
    split; [|split].
    + unfold PatternSyntax.descendants. simpl. unfold py_sorted.
      by rewrite getattr_name, all_strings_Some.
    + apply (Sorted_merge_sort String.le).
    + apply merge_sort_Permutation.
Qed.

Lemma size_py_set_le (l : list attr_value) : (size (py_set l) ≤ length l)%nat.
Proof.
  unfold py_set. induction l as [|x l IH].
  - change (size (∅ : gset attr_value) ≤ 0)%nat. by rewrite size_empty.
  - rewrite list_to_set_cons. cbn [length].
    rewrite size_union_alt, size_singleton.
    assert (size (list_to_set l ∖ {[x]} : gset attr_value)
            ≤ size (list_to_set l : gset attr_value))%nat
      by (apply subseteq_size; intros y; rewrite elem_of_difference; tauto).
    lia.
Qed.

(** Whatever cache is bound, [n_species] and [n_leaves] read the same
    container: they raise together, and the number of species never
    exceeds the number of leaves. *)
Theorem n_species_le_n_leaves (cache : option TreePatternCache.t)
    (target_node : tnode) :
  (∀ a b, PatternSyntax.n_species cache target_node = Return a →
          PatternSyntax.n_leaves cache target_node = Return b →
          (a ≤ b)%nat)
  ∧ (∀ e, PatternSyntax.n_species cache target_node = Raise e
          ↔ PatternSyntax.n_leaves cache target_node = Raise e).
Proof.
  unfold PatternSyntax.n_species, PatternSyntax.n_leaves.
  destruct cache as [c|]; simpl.
  - unfold TreePatternCache.get_cached_attr, TreePatternCache.get_leaves.
    destruct (TreePatternCache.leaves_cache c !! tid target_node) as [ns|];
      simpl.
    + split; [|by split].
      intros a b [= <-] [= <-].
      etrans; [apply size_py_set_le|]. by rewrite length_fmap.
    + split; [done|]. by split.
  - split; [|by split].
    intros a b [= <-] [= <-].
    etrans; [apply size_py_set_le|]. by rewrite length_fmap.
Qed.

Lemma n_species_le_n_leaves_witness :
  PatternSyntax.n_species None two_genes = Return 1%nat
  ∧ PatternSyntax.n_leaves None two_genes = Return 2%nat
  ∧ (1 ≤ 2)%nat.
Proof.
  assert (H1 : PatternSyntax.n_species None two_genes = Return 1%nat)
    by by vm_compute.
  assert (H2 : PatternSyntax.n_leaves None two_genes = Return 2%nat)
    by by vm_compute.
  split; [done|]. split; [done|].
  exact (proj1 (n_species_le_n_leaves None two_genes) 1%nat 2%nat H1 H2).
Defined.

(** A cache built from a tree has no entry for a node that is not in that
    tree: with such a cache bound, every helper raises [KeyError]. *)
Theorem helpers_foreign_cache (tree node : tnode) :
  tid node ∉ tid <$> preorder tree →
  let c := Some (TreePatternCache.init tree) in
  PatternSyntax.leaves c node = Raise KeyError
  ∧ PatternSyntax.descendants c node = Raise KeyError
  ∧ PatternSyntax.species c node = Raise KeyError
  ∧ (∀ names, PatternSyntax.contains_species c node names = Raise KeyError)
  ∧ (∀ names, PatternSyntax.contains_leaves c node names = Raise KeyError)
  ∧ PatternSyntax.n_species c node = Raise KeyError
  ∧ PatternSyntax.n_leaves c node = Raise KeyError
  ∧ PatternSyntax.n_duplications c node = Raise KeyError
  ∧ PatternSyntax.n_speciations c node = Raise KeyError.
Proof.
  intros Hout c.
  assert (Hmiss : ∀ lo,
    TreePatternCache.get_cached_content lo tree !! tid node = None).
  { intros lo. unfold TreePatternCache.get_cached_content.
    apply not_elem_of_list_to_map_1. by rewrite <-list_fmap_compose. }
  assert (Hattr : ∀ a lo,
    PatternSyntax.cache_get_cached_attr c a node lo = Raise KeyError).
  { intros a lo. unfold c. simpl.
    unfold TreePatternCache.get_cached_attr. simpl.
    by destruct lo; rewrite Hmiss. }
  unfold PatternSyntax.leaves, PatternSyntax.descendants,
    PatternSyntax.species, PatternSyntax.contains_species,
    PatternSyntax.contains_leaves, PatternSyntax.n_species,
    PatternSyntax.n_duplications, PatternSyntax.n_speciations.
  rewrite !Hattr. repeat split.
  unfold PatternSyntax.n_leaves, c. simpl.
  unfold TreePatternCache.get_leaves. simpl. by rewrite Hmiss.
Qed.

Lemma helpers_foreign_cache_witness :
  PatternSyntax.n_leaves (Some (TreePatternCache.init node_A)) two_genes
  = Raise KeyError.
Proof.
  destruct (helpers_foreign_cache node_A two_genes)
    as (_ & _ & _ & _ & _ & _ & H & _); [|exact H].
  apply (bool_decide_unpack _). by vm_compute.
Defined.

(** When the leaves of a node carry pairwise distinct names, resp. species,
    [contains_leaves], resp. [contains_species], is the coverage test: it
    returns [True] exactly when every required value is the name, resp. the
    species, of some leaf. *)
Theorem contains_distinct_is_coverage (target_node : tnode)
    (names : names_arg) :
  (NoDup (name <$> iter_leaves target_node) →
     PatternSyntax.contains_leaves None target_node names = Return true
     ↔ ∀ x, x ∈ PatternSyntax.as_set names →
            ∃ n, n ∈ iter_leaves target_node ∧ x = Some (name n))
  ∧ (NoDup (species <$> iter_leaves target_node) →
       PatternSyntax.contains_species None target_node names = Return true
       ↔ ∀ x, x ∈ PatternSyntax.as_set names →
              ∃ n, n ∈ iter_leaves target_node ∧ x = species n).
Proof.
  split; intros Hnd.
  - unfold PatternSyntax.contains_leaves. simpl.
    rewrite getattr_name.
    assert (Hnd' : NoDup (Some <$> (name <$> iter_leaves target_node)))
      by by apply (NoDup_fmap_2 Some).
    split.
    + intros [= H%bool_decide_eq_true]. intros x Hx.
      pose proof (proj1 (count_found_distinct _ _ Hnd') H x Hx) as H'.
      clear H. rename H' into H.
      apply list_elem_of_fmap in H as (s & -> & Hs).
      apply list_elem_of_fmap in Hs as (n & -> & Hn). eauto.
    + intros H. f_equal. apply bool_decide_eq_true.
      apply (count_found_distinct _ _ Hnd'). intros x Hx.
      destruct (H x Hx) as (n & Hn & ->).
      apply list_elem_of_fmap. exists (name n). split; [done|].
      apply list_elem_of_fmap. eauto.
  - unfold PatternSyntax.contains_species. simpl.
    change ((λ n, getattr n "species") <$> iter_leaves target_node)
      with (species <$> iter_leaves target_node).
    split.
    + intros [= H%bool_decide_eq_true]. intros x Hx.
      pose proof (proj1 (count_found_distinct _ _ Hnd) H x Hx) as H'.
      clear H. rename H' into H.
      apply list_elem_of_fmap in H as (n & -> & Hn). eauto.
    + intros H. f_equal. apply bool_decide_eq_true.
      apply (count_found_distinct _ _ Hnd). intros x Hx.
      destruct (H x Hx) as (n & Hn & ->).
      apply list_elem_of_fmap. eauto.
Qed.

Lemma contains_distinct_is_coverage_witness :
  PatternSyntax.contains_leaves None two_genes (Names [Some "a2"; Some "a1"])
  = Return true.
Proof.
  apply (proj1 (contains_distinct_is_coverage two_genes
                  (Names [Some "a2"; Some "a1"]))).
  - apply (bool_decide_unpack _). by vm_compute.
  - assert (iter_leaves two_genes = [gene 1 "a1" "A"; gene 2 "a2" "A"])
      as -> by by vm_compute.
    intros x Hx. unfold PatternSyntax.as_set, py_set in Hx.
    apply elem_of_list_to_set in Hx.
    apply elem_of_cons in Hx as [->|Hx].
    + exists (gene 2 "a2" "A"). split; [by right; left|done].
    + apply list_elem_of_singleton in Hx as ->.
      exists (gene 1 "a1" "A"). split; [by left|done].
Defined.

End more_helpers.

(** ** More on local evaluation *)

Section more_local_match.
Import TreePattern.

Variable eval_expr :
  nat → option TreePatternCache.t → string → tnode → tnode → result pyval.

(** A literal name made of plain characters is compared with the name of
    the target node, whatever the scope binds: [is_local_match] returns
    [True] when the two names are equal and [False] otherwise. *)
Theorem literal_name_exact_match (σ : store) (root self : pattern)
    (world target_node : tnode) :
  pname self ≠ EmptyString →
  contains_char at_sign (pname self) = false →
  pname self ≠ "*" →
  plain_string (pname self) →
  is_local_match eval_expr σ root self world target_node
  = Return (VBool (bool_decide (name target_node = pname self))).
Proof.
  intros Hne Hat Hstar Hplain.
  rewrite is_local_match_plain_name by done. do 2 f_equal.
  destruct (String.eqb_spec (name target_node) (pname self)) as [Heq|Hneq].
  - by rewrite bool_decide_eq_true_2.
  - by rewrite bool_decide_eq_false_2.
Qed.

(** The expression handed to [eval] never contains the self-reference
    symbol: every occurrence has been replaced, and a literal name has
    none. *)
Lemma contains_char_app (c : ascii) (s1 s2 : string) :
  contains_char c (s1 ++ s2) = contains_char c s1 || contains_char c s2.
Proof.
  induction s1 as [|a s1 IH]; simpl; [done|].
  by destruct (Ascii.eqb a c).
Qed.

Lemma replace_char_removes (c : ascii) (by_ s : string) :
  contains_char c by_ = false →
  contains_char c (replace_char c by_ s) = false.
Proof.
  intros Hby. induction s as [|a s IH]; simpl; [done|].
  destruct (Ascii.eqb a c) eqn:E.
  - by rewrite contains_char_app, Hby, IH.
  - simpl. by rewrite E.
Qed.

Theorem constraint_has_no_self_reference (self : pattern) :
  contains_char at_sign (constraint_of self) = false.
Proof.
  unfold constraint_of.
  destruct (String.eqb (pname self) EmptyString); [done|].
  destruct (contains_char at_sign (pname self)) eqn:Hat.
  - by apply replace_char_removes.
  - destruct (String.eqb "*" (pname self)); [done|].
    by rewrite !contains_char_app, Hat.
Qed.

(** An [AttributeError] or [IndexError] of the first evaluation is
    reported as the [ValueError] "Constraint evaluation failed"; a
    [KeyError], [TypeError], [SyntaxError] or other exception of the first
    evaluation passes through unchanged; and [is_local_match] itself
    raises an [AttributeError] or [IndexError] only out of the retry in
    the root's scope. *)
Theorem evaluation_errors (σ : store) (root self : pattern)
    (world target_node : tnode) :
  let first :=
    eval_or_true eval_expr σ (psyntax self) (constraint_of self) world
      target_node in
  let retry :=
    eval_or_true eval_expr σ (psyntax root) (constraint_of self) world
      target_node in
  let result := is_local_match eval_expr σ root self world target_node in
  (first = Raise AttributeError ∨ first = Raise IndexError →
     result = Raise (ValueError failed_msg))
  ∧ (∀ e, e ∈ [KeyError; TypeError; SyntaxError; OtherError] →
          first = Raise e → result = Raise e)
  ∧ (∀ e, e ∈ [AttributeError; IndexError] →
          result = Raise e →
          ∃ msg, first = Raise (NameError msg) ∧ retry = Raise e).
Proof.
  intros first retry result. unfold result, is_local_match.
  fold first. fold retry. split; [|split].
  - by intros [-> | ->].
  - intros e He ->.
    repeat (apply elem_of_cons in He as [->|He]; [done|]).
    by apply elem_of_nil in He.
  - intros e He Hres.
    assert (Hcases : e = AttributeError ∨ e = IndexError).
    { apply elem_of_cons in He as [->|He]; [by left|].
      apply list_elem_of_singleton in He as ->. by right. }
    destruct first as [v|e1] eqn:E1; [done|].
    destruct e1; try (injection Hres as <-; by destruct Hcases).
    destruct retry as [v|e2] eqn:E2; [done|].
    destruct e2; injection Hres as <-; try (by destruct Hcases); eauto.
Qed.

End more_local_match.

Lemma plain_string_A : plain_string "A".
Proof.
  intros a H. cbn [contains_char] in H.
  destruct (Ascii.eqb "A" a) eqn:E; [|done].
  apply Ascii.eqb_eq in E. by subst a.
Qed.

Lemma literal_name_exact_match_witness :
  TreePattern.is_local_match eval_name ∅ pattern_A pattern_A node_A node_A
  = Return (VBool (bool_decide (name node_A = pname pattern_A))).
Proof.
  apply (literal_name_exact_match eval_name ∅ pattern_A pattern_A node_A
           node_A); [done|done|done|apply plain_string_A].
Defined.

(** A scope in which [@.children[0].name] fails on a leaf. *)
Definition eval_first_child (syntax : nat)
    (bound : option TreePatternCache.t) (constraint : string)
    (world target_node : tnode) : result pyval :=
  match children target_node with
  | [] => Raise IndexError
  | c :: _ => Return (VStr (name c))
  end.

Definition first_child_pattern : pattern := PNode "@.children[0].name" 0 [].

Lemma evaluation_errors_witness :
  TreePattern.is_local_match eval_first_child ∅ first_child_pattern
    first_child_pattern node_A node_A
  = Raise (ValueError TreePattern.failed_msg).
Proof.
  pose proof (evaluation_errors eval_first_child ∅ first_child_pattern
                first_child_pattern node_A node_A) as H.
  cbv zeta in H. destruct H as (H & _ & _). apply H. by right.
Defined.

(** ** The orderings tried by the children matcher *)

Section orderings.
Context {A : Type}.

Lemma selections_perm (l : list A) (x : A) (r : list A) :
  (x, r) ∈ selections l → l ≡ₚ x :: r.
Proof.
  revert x r. induction l as [|y l IH]; intros x r H; simpl in H.
  - by apply elem_of_nil in H.
  - apply elem_of_cons in H as [[= -> ->]|H]; [done|].
    apply list_elem_of_fmap in H as ([z r'] & [= -> ->] & H). simpl.
    rewrite (IH _ _ H). apply perm_swap.
Qed.

Lemma selections_complete (l : list A) (x : A) :
  x ∈ l → ∃ r, (x, r) ∈ selections l.
Proof.
  induction 1 as [x l|x y l _ [r IH]]; simpl.
  - eexists. by left.
  - exists (y :: r). right. apply list_elem_of_fmap. by exists (x, r).
Qed.

Lemma selections_length (l : list A) (x : A) (r : list A) :
  (x, r) ∈ selections l → length l = S (length r).
Proof. intros H. by rewrite (selections_perm l x r H). Qed.

Lemma permutations_upto_spec (n : nat) :
  ∀ (l c : list A), length l = n → c ∈ permutations_upto n l ↔ c ≡ₚ l.
Proof.
  induction n as [|n IH]; intros l c Hlen; simpl.
  - destruct l; [|done]. rewrite list_elem_of_singleton.
    split; [by intros ->|]. intros H. by apply Permutation_nil_r in H.
  - rewrite list_elem_of_In, in_flat_map. split.
    + intros ([x r] & Hxr%list_elem_of_In & Hc%list_elem_of_In).
      simpl in Hc. apply list_elem_of_fmap in Hc as (c' & -> & Hc').
      pose proof (selections_length _ _ _ Hxr).
      apply IH in Hc'; [|lia].
      rewrite Hc'. symmetry. by apply selections_perm.
    + intros Hc. destruct c as [|x c'].
      { apply Permutation_nil_l in Hc. by subst l. }
      assert (Hx : x ∈ l) by (rewrite <-Hc; left).
      destruct (selections_complete l x Hx) as [r Hr].
      exists (x, r). split; [by apply list_elem_of_In|].
      apply list_elem_of_In. simpl. apply list_elem_of_fmap.
      exists c'. split; [done|].
      pose proof (selections_length _ _ _ Hr).
      apply IH; [lia|].
      apply (Permutation_cons_inv (a:=x)).
      by rewrite Hc, (selections_perm _ _ _ Hr).
Qed.

(** [permutations(l)] enumerates exactly the orderings of [l]. *)
Lemma itertools_permutations_spec (l c : list A) :
  c ∈ itertools_permutations l ↔ c ≡ₚ l.
Proof. by apply permutations_upto_spec. Qed.

(** The first ordering is [l] itself. *)
Lemma itertools_permutations_head (l : list A) :
  head (itertools_permutations l) = Some l.
Proof.
  unfold itertools_permutations.
  induction l as [|x l IH]; simpl; [done|].
  destruct (permutations_upto (length l) l) as [|c cs]; [done|].
  simpl in IH. by injection IH as ->.
Qed.

End orderings.

(** ** match as an existence test *)

(** Pattern child [i] is assigned [candidate[k + i]], and all of them
    match. *)
Fixpoint children_ok (v : pattern → tnode → bool) (ps : list pattern)
    (candidate : list tnode) (k : nat) : bool :=
  match ps with
  | [] => true
  | p :: ps' =>
      match candidate !! k with
      | Some t => v p t && children_ok v ps' candidate (S k)
      | None => false
      end
  end.

Lemma children_ok_spec (v : pattern → tnode → bool) (ps : list pattern)
    (candidate : list tnode) (k : nat) :
  children_ok v ps candidate k = true
  ↔ ∀ i p, ps !! i = Some p →
           ∃ t, candidate !! (k + i)%nat = Some t ∧ v p t = true.
Proof.
  revert k. induction ps as [|p ps IH]; intros k; simpl.
  - split; [|done]. by intros _ i p.
  - destruct (candidate !! k) as [t|] eqn:Hk.
    + rewrite andb_true_iff, IH. split.
      * intros [Hp Hrest] [|i] q Hq; simpl in Hq.
        -- injection Hq as <-. exists t. by rewrite Nat.add_0_r.
        -- destruct (Hrest i q Hq) as (t' & Ht' & Hv).
           exists t'. split; [|done]. by rewrite <-Nat.add_succ_comm.
      * intros H. split.
        -- destruct (H 0%nat p eq_refl) as (t' & Ht' & Hv).
           rewrite Nat.add_0_r, Hk in Ht'. by injection Ht' as <-.
        -- intros i q Hq. destruct (H (S i) q Hq) as (t' & Ht' & Hv).
           exists t'. split; [|done]. by rewrite Nat.add_succ_comm.
    + split; [done|]. intros H.
      destruct (H 0%nat p eq_refl) as (t' & Ht' & _).
      rewrite Nat.add_0_r, Hk in Ht'. done.
Qed.

Section children_matcher.
Import TreePattern.

Variable eval_expr :
  nat → option TreePatternCache.t → string → tnode → tnode → result pyval.
Variables (root : pattern) (world : tnode).
Variable cache : option TreePatternCache.t.
Variable self : pattern.

(** Every constraint of the pattern evaluates to a boolean: the
    expression of each of its nodes, evaluated in the scope of that node
    with the cache bound, at any target node. *)
Hypothesis Hbool :
  ∀ p t, p ∈ pnodes self →
    ∃ b, eval_or_true eval_expr (set_cache ∅ (psyntax p) cache) (psyntax p)
           (constraint_of p) world t = Return (VBool b).

(** The local constraint of [p] holds at [t]. *)
Definition holds_locally (p : pattern) (t : tnode) : bool :=
  match is_local_match eval_expr (set_cache ∅ (psyntax p) cache) root p
          world t with
  | Return v => py_truthy v
  | Raise _ => false
  end.

(** [p.match(t, cache)] returns a true value. *)
Definition matches (p : pattern) (t : tnode) : bool :=
  match (match_ eval_expr root p world t cache ∅).2 with
  | Return v => py_truthy v
  | Raise _ => false
  end.

Lemma local_value (σ : store) (p : pattern) (t : tnode) :
  p ∈ pnodes self →
  σ !! psyntax p = cache →
  is_local_match eval_expr σ root p world t
  = Return (VBool (holds_locally p t)).
Proof.
  intros Hp Hσ. destruct (Hbool p t Hp) as [b Hb].
  assert (E : eval_or_true eval_expr σ (psyntax p) (constraint_of p) world t
              = Return (VBool b)).
  { unfold eval_or_true in *. rewrite set_cache_lookup in Hb.
    by rewrite Hσ. }
  unfold holds_locally, is_local_match. by rewrite E, Hb.
Qed.

Section loops.
Variable child_match : pattern → tnode → store → store * result pyval.
Variable v : pattern → tnode → bool.

Lemma match_children_value (ps : list pattern) :
  Forall (λ p, ∀ t σ, (child_match p t σ).2 = Return (VBool (v p t))) ps →
  ∀ candidate i acc σ,
    (i + length ps ≤ length candidate)%nat →
    (match_children child_match ps candidate i (VBool acc) σ).2
    = Return (VBool (acc && children_ok v ps candidate i)).
Proof.
  induction 1 as [|p ps Hp _ IH]; intros candidate i acc σ Hlen; simpl.
  - by rewrite andb_true_r.
  - simpl in Hlen.
    destruct (lookup_lt_is_Some_2 candidate i ltac:(lia)) as [t Ht].
    rewrite Ht. specialize (Hp t σ).
    destruct (child_match p t σ) as [σ' r]. simpl in Hp. subst r. simpl.
    rewrite IH by lia. by rewrite andb_assoc.
Qed.

Lemma match_candidates_value (ps : list pattern)
    (candidates : list (list tnode)) :
  Forall (λ p, ∀ t σ, (child_match p t σ).2 = Return (VBool (v p t))) ps →
  Forall (λ c, (length ps ≤ length c)%nat) candidates →
  ∀ st σ,
    (match_candidates child_match ps candidates (VBool st) σ).2
    = Return (VBool (match candidates with
                     | [] => st
                     | _ => existsb (λ c, children_ok v ps c 0) candidates
                     end)).
Proof.
  intros Hps. induction 1 as [|c candidates Hc _ IH]; intros st σ; simpl.
  - done.
  - pose proof (match_children_value ps Hps c 0 true σ ltac:(simpl; lia))
      as Hv.
    destruct (match_children child_match ps c 0 (VBool true) σ) as [σ' r].
    simpl in Hv. subst r. simpl.
    destruct (children_ok v ps c 0); simpl; [done|].
    rewrite IH. by destruct candidates.
Qed.
End loops.

(** One level of the existence test. *)
Definition step (p : pattern) (t : tnode) : bool :=
  holds_locally p t
  && (if bool_decide (pchildren p ≠ []) then
        bool_decide (length (pchildren p) ≤ length (children t))%nat
        && existsb (λ c, children_ok matches (pchildren p) c 0)
             (itertools_permutations (children t))
      else true).

Lemma match_value_step (p : pattern) :
  p ∈ pnodes self →
  ∀ t σ, (match_ eval_expr root p world t cache σ).2
         = Return (VBool (step p t)).
Proof.
  induction p as [n sy cs IH] using pattern_ind'. intros Hp t σ.
  assert (Hcs : Forall (λ q, ∀ t σ,
            (match_ eval_expr root q world t cache σ).2
            = Return (VBool (matches q t))) cs).
  { rewrite Forall_forall in IH. apply Forall_forall. intros q Hq t' σ'.
    assert (Hq' : q ∈ pnodes self).
    { apply (pnodes_trans _ (PNode n sy cs)); [done|].
      apply (pnodes_child _ q); [done|apply pnodes_self]. }
    unfold matches. by rewrite (IH q Hq Hq' t' ∅), (IH q Hq Hq' t' σ'). }
  rewrite match_unfold. cbv zeta.
  rewrite (local_value _ (PNode n sy cs) t) by (done || apply set_cache_lookup).
  unfold step. cbn [pchildren psyntax py_truthy].
  destruct (holds_locally (PNode n sy cs) t); simpl; [|done].
  case_bool_decide as Hne; simpl; [|done].
  case_bool_decide as Hlen; simpl; [|done].
  rewrite (match_candidates_value _ matches cs _ Hcs).
  - pose proof (itertools_permutations_head (children t)) as Hhead.
    by destruct (itertools_permutations (children t)).
  - apply Forall_forall. intros c Hc.
    apply itertools_permutations_spec in Hc. by rewrite Hc.
Qed.

Lemma matches_step (p : pattern) (t : tnode) :
  p ∈ pnodes self → matches p t = step p t.
Proof. intros Hp. unfold matches. by rewrite match_value_step. Qed.

Lemma matches_spec (node : tnode) :
  matches self node = true
  ↔ holds_locally self node = true
    ∧ (pchildren self = []
       ∨ ∃ candidate,
           candidate ≡ₚ children node
           ∧ ∀ i p, pchildren self !! i = Some p →
                    ∃ t, candidate !! i = Some t ∧ matches p t = true).
Proof.
  rewrite matches_step by apply pnodes_self. unfold step.
  rewrite andb_true_iff.
  apply and_iff_compat_l.
  case_bool_decide as Hne.
  - rewrite andb_true_iff, bool_decide_eq_true, existsb_exists. split.
    + intros (Hlen & c & Hc & Hok). right. exists c. split.
      * by apply itertools_permutations_spec, list_elem_of_In.
      * by apply (children_ok_spec matches (pchildren self) c 0).
    + intros [Hnil|(c & Hc & Hok)]; [done|].
      assert (Hok' : children_ok matches (pchildren self) c 0 = true)
        by by apply children_ok_spec.
      split.
      * rewrite <-Hc.
        destruct (decide (length (pchildren self) ≤ length c)%nat)
          as [|Hgt]; [done|].
        destruct (lookup_lt_is_Some_2 (pchildren self) (length c)
                    ltac:(lia)) as [q Hq].
        destruct (Hok _ _ Hq) as (t & Ht & _).
        apply lookup_lt_Some in Ht. lia.
      * exists c. split; [|done].
        by apply list_elem_of_In, itertools_permutations_spec.
  - split; [intros _; left|done].
    destruct (pchildren self); [done|]. by destruct Hne.
Qed.

(** When every constraint of the pattern evaluates to a boolean, [match]
    never raises and returns a boolean, whatever the store; and it returns
    [True] exactly when the local constraint holds and either the pattern
    node has no children or some ordering of the children of the target
    node makes every pattern child match the node at its position. *)
Theorem match_is_existence_test (node : tnode) (σ : store) :
  (match_ eval_expr root self world node cache σ).2
  = Return (VBool (matches self node))
  ∧ (matches self node = true
     ↔ holds_locally self node = true
       ∧ (pchildren self = []
          ∨ ∃ candidate,
              candidate ≡ₚ children node
              ∧ ∀ i p, pchildren self !! i = Some p →
                       ∃ t, candidate !! i = Some t ∧ matches p t = true)).
Proof.
  split; [|apply matches_spec].
  by rewrite match_value_step, matches_step by apply pnodes_self.
Qed.

(** When every constraint of the pattern evaluates to a boolean, the
    order of the children of the target node does not matter: two nodes
    at which the local constraint agrees and whose children are the same
    up to order are matched alike. *)
Theorem match_is_commutative (node node' : tnode) :
  children node ≡ₚ children node' →
  holds_locally self node = holds_locally self node' →
  matches self node = matches self node'.
Proof.
  intros Hperm Hlocal.
  assert (Himp : ∀ a b, children a ≡ₚ children b →
            holds_locally self a = holds_locally self b →
            matches self a = true → matches self b = true).
  { intros a b Hab Hl Ha.
    apply matches_spec in Ha as [Hla Hch].
    apply matches_spec. split; [by rewrite <-Hl|].
    destruct Hch as [Hnil|(c & Hc & Hok)]; [by left|].
    right. exists c. split; [by rewrite Hc|done]. }
  destruct (matches self node) eqn:E1, (matches self node') eqn:E2;
    try done.
  - by rewrite (Himp node node' Hperm Hlocal E1) in E2.
  - by rewrite (Himp node' node (symmetry Hperm) (eq_sym Hlocal) E2) in E1.
Qed.

End children_matcher.

(** The constraints of [pattern_AB] are the empty expression and two
    names: each evaluates to a boolean. *)
Lemma pattern_AB_boolean (world t : tnode) (p : pattern) :
  p ∈ pnodes pattern_AB →
  ∃ b, TreePattern.eval_or_true eval_name (set_cache ∅ (psyntax p) None)
         (psyntax p) (TreePattern.constraint_of p) world t
       = Return (VBool b).
Proof.
  intros Hp. simpl in Hp.
  repeat (apply elem_of_cons in Hp as [->|Hp]; [by eexists|]).
  by apply elem_of_nil in Hp.
Qed.

Lemma match_is_existence_test_witness :
  (TreePattern.match_ eval_name pattern_AB pattern_AB tree_BA tree_BA None
     ∅).2
  = Return (VBool (matches eval_name pattern_AB tree_BA None pattern_AB
                     tree_BA))
  ∧ matches eval_name pattern_AB tree_BA None pattern_AB tree_BA = true.
Proof.
  split; [|reflexivity].
  exact (proj1 (match_is_existence_test eval_name pattern_AB tree_BA None
                  pattern_AB (λ p t, pattern_AB_boolean tree_BA t p)
                  tree_BA ∅)).
Defined.

Lemma match_is_commutative_witness :
  matches eval_name pattern_AB tree_AB None pattern_AB tree_AB
  = matches eval_name pattern_AB tree_AB None pattern_AB tree_BA.
Proof.
  apply (match_is_commutative eval_name pattern_AB tree_AB None
           pattern_AB (λ p t, pattern_AB_boolean tree_AB t p)
           tree_AB tree_BA).
  - apply perm_swap.
  - reflexivity.
Defined.

(** ** More on match and on plain mode *)

Section more_match.
Import TreePattern.

Variable eval_expr :
  nat → option TreePatternCache.t → string → tnode → tnode → result pyval.
Variables (root : pattern) (world : tnode).
Variable cache : option TreePatternCache.t.

(** A call that leaves the binding of [s] as it found it. *)
Definition frames (s : nat) (f : store → store * result pyval) : Prop :=
  ∀ σ, (f σ).1 !! s = σ !! s.

Lemma match_children_frames (child_match : pattern → tnode → store →
                                           store * result pyval)
    (s : nat) (ps : list pattern) :
  Forall (λ p, ∀ t, frames s (child_match p t)) ps →
  ∀ candidate i st, frames s (match_children child_match ps candidate i st).
Proof.
  induction 1 as [|p ps Hp _ IH]; intros candidate i st σ; simpl.
  - done.
  - destruct (candidate !! i) as [t|]; [|done].
    specialize (Hp t σ).
    destruct (child_match p t σ) as [σ' [v|e]]; simpl in *; [|done].
    destruct (and_unless_none st v); simpl; [|done].
    by rewrite IH.
Qed.

Lemma match_candidates_frames (child_match : pattern → tnode → store →
                                             store * result pyval)
    (s : nat) (ps : list pattern) :
  Forall (λ p, ∀ t, frames s (child_match p t)) ps →
  ∀ candidates st, frames s (match_candidates child_match ps candidates st).
Proof.
  intros Hps candidates. induction candidates as [|c candidates IH];
    intros st σ; simpl.
  - done.
  - pose proof (match_children_frames _ s ps Hps c 0 (VBool true) σ) as Hc.
    destruct (match_children child_match ps c 0 (VBool true) σ)
      as [σ' [v|e]]; simpl in *; [|done].
    destruct (py_truthy v); simpl; [done|]. by rewrite IH.
Qed.

Lemma match_frames (s : nat) (self : pattern) :
  s ∉ psyntax <$> pnodes self →
  ∀ node, frames s (match_ eval_expr root self world node cache).
Proof.
  induction self as [n sy cs IH] using pattern_ind'. intros Hs node σ.
  rewrite pnodes_eq, fmap_cons, not_elem_of_cons in Hs.
  destruct Hs as [Hsy Hcs]. cbn [psyntax pchildren] in *.
  rewrite match_unfold. cbv zeta. cbn [psyntax pchildren].
  pose proof (set_cache_lookup_ne σ sy s cache ltac:(done)) as H1.
  destruct (is_local_match _ _ _ _ _ _) as [status|e]; [|done].
  destruct (_ && _); [|done].
  destruct (bool_decide _); [|done].
  rewrite match_candidates_frames; [done|].
  rewrite Forall_forall in IH. apply Forall_forall. intros c Hc t.
  apply IH; [done|]. intros Hin. apply Hcs.
  apply list_elem_of_fmap in Hin as (q & -> & Hq).
  apply list_elem_of_fmap. exists q. split; [done|].
  apply list_elem_of_join. exists (pnodes c). split; [done|].
  apply list_elem_of_fmap. by exists c.
Qed.

Lemma plain_loop_frames (s : nat) (self : pattern) (maxhits : option Z)
    (nodes : list tnode) :
  s ∉ psyntax <$> pnodes self →
  ∀ num_hits σ,
    final_store (plain_loop eval_expr root self world maxhits cache nodes
                   num_hits σ) !! s = σ !! s.
Proof.
  intros Hs. induction nodes as [|node nodes IH]; intros nh σ; simpl.
  - done.
  - pose proof (match_frames s self Hs node σ) as Hm.
    destruct (match_ eval_expr root self world node cache σ)
      as [σ' [st|e]]; simpl in *; [|done].
    destruct (reached _ _); destruct (py_truthy st); simpl; try done;
      by rewrite IH.
Qed.

(** [match], and [find_match] in plain mode, rebind the syntax objects of
    the nodes of the pattern and no other: the cache bound to any other
    syntax object is what it was before the call. *)
Theorem match_binds_pattern_scopes_only (s : nat) (self : pattern)
    (node : tnode) (σ : store) :
  s ∉ psyntax <$> pnodes self →
  (match_ eval_expr root self world node cache σ).1 !! s = σ !! s
  ∧ ∀ budget fuel maxhits target_traversal match_type res,
      match_type ≠ Some "cascade" →
      find_match eval_expr budget fuel root self world maxhits cache
        target_traversal match_type σ = Some res →
      final_store res !! s = σ !! s.
Proof.
  intros Hs. split; [by apply match_frames|].
  intros budget fuel maxhits tt mt res Hmt. unfold find_match.
  rewrite bool_decide_eq_false_2 by done. intros [= <-].
  by apply plain_loop_frames.
Qed.

(** A call of [match] on the root of a pattern is not affected by what
    earlier calls left bound: its value is the same from every store. *)
Theorem match_ignores_earlier_bindings (self : pattern) (node : tnode)
    (σ σ' : store) :
  psyntax self = psyntax root →
  (match_ eval_expr root self world node cache σ).2
  = (match_ eval_expr root self world node cache σ').2.
Proof. apply match_value_indep. Qed.

(** A successful [match] needs a true local constraint and, for a pattern
    node with children, a target node with at least as many children. *)
Theorem match_needs_enough_children (self : pattern) (node : tnode)
    (σ : store) (v : pyval) :
  (match_ eval_expr root self world node cache σ).2 = Return v →
  py_truthy v = true →
  (∃ status,
     is_local_match eval_expr (set_cache σ (psyntax self) cache) root self
       world node = Return status
     ∧ py_truthy status = true)
  ∧ (pchildren self ≠ [] →
     (length (pchildren self) ≤ length (children node))%nat).
Proof.
  rewrite match_unfold. cbv zeta.
  destruct (is_local_match _ _ _ _ _ _) as [status|e]; [|done].
  destruct (py_truthy status) eqn:Hst; simpl.
  - case_bool_decide as Hne; simpl.
    + case_bool_decide as Hlen; simpl.
      * intros _ _. split; [by eexists|done].
      * by intros [= <-].
    + intros _ _. split; [by eexists|done].
  - intros [= <-] Hv. by rewrite Hst in Hv.
Qed.

(** A childless pattern node that is empty or the wildcard matches every
    node: in plain mode without a bound, [find_match] yields the whole
    traversal and ends without raising. *)
Theorem wildcard_finds_every_node (self : pattern) (budget fuel : nat)
    (target_traversal : strategy) (match_type : option string)
    (σ : store) :
  pname self = EmptyString ∨ pname self = "*" →
  pchildren self = [] →
  match_type ≠ Some "cascade" →
  ∃ res,
    find_match eval_expr budget fuel root self world None cache
      target_traversal match_type σ = Some res
    ∧ yielded res = traverse target_traversal world
    ∧ outcome res = Return ().
Proof.
  intros Hname Hcs Hmt. unfold find_match.
  rewrite bool_decide_eq_false_2 by done. eexists. split; [done|].
  assert (Hm : ∀ node σ, ∃ σ',
    match_ eval_expr root self world node cache σ
    = (σ', Return (VBool true))).
  { intros node σ0. rewrite match_unfold. cbv zeta.
    assert (is_local_match eval_expr
              (set_cache σ0 (psyntax self) cache) root self world node
            = Return (VBool true)) as ->.
    { unfold is_local_match, constraint_of.
      by destruct Hname as [-> | ->]. }
    rewrite Hcs. simpl. eauto. }
  generalize (traverse target_traversal world) 0%nat σ.
  intros nodes. induction nodes as [|node nodes IH]; intros nh σ0; [done|].
  simpl. destruct (Hm node σ0) as [σ' ->]. simpl.
  destruct (IH (nh + 1)%nat σ') as [-> ->]. done.
Qed.

End more_match.

Section more_plain_mode.
Import TreePattern.

Variable eval_expr :
  nat → option TreePatternCache.t → string → tnode → tnode → result pyval.
Variables (root self : pattern) (tree : tnode).
Variable cache : option TreePatternCache.t.

Lemma plain_loop_sublist (maxhits : option Z) (nodes : list tnode) :
  ∀ num_hits σ,
    yielded (plain_loop eval_expr root self tree maxhits cache nodes
               num_hits σ) `sublist_of` nodes.
Proof.
  induction nodes as [|node nodes IH]; intros nh σ; simpl; [done|].
  destruct (match_ eval_expr root self tree node cache σ) as [σ' [st|e]];
    simpl; [|apply sublist_nil_l].
  destruct (py_truthy st); destruct (reached _ _); simpl.
  - apply sublist_skip, sublist_nil_l.
  - apply sublist_skip, IH.
  - apply sublist_nil_l.
  - apply sublist_cons, IH.
Qed.

Lemma plain_loop_length (k : Z) (nodes : list tnode) :
  ∀ num_hits σ,
    (length (yielded (plain_loop eval_expr root self tree (Some k) cache
                        nodes num_hits σ))
     ≤ Z.to_nat (Z.max 1 (k - Z.of_nat num_hits)))%nat.
Proof.
  induction nodes as [|node nodes IH]; intros nh σ; simpl; [lia|].
  destruct (match_ eval_expr root self tree node cache σ) as [σ' [st|e]];
    simpl; [|lia].
  destruct (py_truthy st); simpl.
  - destruct (Z.leb_spec k (Z.of_nat (nh + 1))); simpl; [lia|].
    specialize (IH (nh + 1)%nat σ'). lia.
  - destruct (Z.leb_spec k (Z.of_nat nh)); simpl; [lia|].
    specialize (IH nh σ'). lia.
Qed.

(** Whatever the evaluations do, raise included, the nodes yielded in
    plain mode are nodes of the traversal, in its order and none twice
    over; and with [maxhits = k] there are at most [k] of them (at most
    one when [k] is not positive). *)
Theorem find_match_plain_bounds (budget fuel : nat) (maxhits : option Z)
    (target_traversal : strategy) (match_type : option string)
    (σ : store) (res : search) :
  match_type ≠ Some "cascade" →
  find_match eval_expr budget fuel root self tree maxhits cache
    target_traversal match_type σ = Some res →
  yielded res `sublist_of` traverse target_traversal tree
  ∧ ∀ k, maxhits = Some k →
         (length (yielded res) ≤ Z.to_nat (Z.max 1 k))%nat.
Proof.
  intros Hmt. unfold find_match. rewrite bool_decide_eq_false_2 by done.
  intros [= <-]. split; [apply plain_loop_sublist|].
  intros k ->.
  etrans; [apply plain_loop_length|]. simpl. lia.
Qed.

Hypothesis Hroot : psyntax self = psyntax root.

(** An exception of the anchored match is not caught: it ends the
    generator, after the successes found before it have been yielded. *)
Lemma plain_loop_raises (maxhits : option Z) (pre : list tnode)
    (n : tnode) (post : list tnode) (e : exn) :
  ∀ num_hits σ,
    (∀ x, x ∈ pre → returns eval_expr root self tree cache x) →
    anchored eval_expr root self tree cache n = Raise e →
    pre = []
    ∨ reached maxhits
        (num_hits
         + length (filter (λ x, succeeds eval_expr root self tree cache x
                                = true) pre)) = false →
    let res := plain_loop eval_expr root self tree maxhits cache
                 (pre ++ n :: post) num_hits σ in
    yielded res
    = filter (λ x, succeeds eval_expr root self tree cache x = true) pre
    ∧ outcome res = Raise e.
Proof.
  induction pre as [|x pre IH]; intros nh σ Hret Hn Hreach.
  - simpl.
    destruct (match_anchored eval_expr root self tree cache Hroot n σ)
      as [σ' ->]. by rewrite Hn.
  - destruct Hreach as [|Hreach]; [done|].
    destruct (Hret x) as [v Hv]; [left|].
    assert (Hret' : ∀ y, y ∈ pre → returns eval_expr root self tree cache y)
      by (intros; apply Hret; by right).
    rewrite <-app_comm_cons.
    destruct (plain_loop_cons eval_expr root self tree cache Hroot maxhits
                x (pre ++ n :: post) nh σ v Hv) as [σ' ->].
    cbv zeta.
    rewrite (filter_succeeds_cons eval_expr root self tree cache _ _ _ Hv)
      in Hreach |- *.
    assert (Hmono : ∀ a b, (a ≤ b)%nat → reached maxhits b = false →
                           reached maxhits a = false).
    { intros a b Hab. unfold reached. destruct maxhits as [m|]; [|done].
      rewrite !Z.leb_gt. lia. }
    destruct (py_truthy v); simpl in *.
    + assert (reached maxhits (nh + 1) = false) as ->
        by (eapply Hmono; [|exact Hreach]; lia).
      destruct (IH (nh + 1)%nat σ' Hret' Hn) as [Hy Ho].
      { right. by replace (nh + 1 + length _)%nat
          with (nh + S (length (filter (λ x, succeeds eval_expr root self
                                               tree cache x = true) pre)))%nat
          by lia. }
      by rewrite Hy, Ho.
    + assert (reached maxhits nh = false) as ->
        by (eapply Hmono; [|exact Hreach]; lia).
      apply IH; [done|done|by right].
Qed.

Theorem find_match_plain_raises (budget fuel : nat) (maxhits : option Z)
    (target_traversal : strategy) (match_type : option string)
    (σ : store) (pre : list tnode) (n : tnode) (post : list tnode)
    (e : exn) :
  match_type ≠ Some "cascade" →
  traverse target_traversal tree = pre ++ n :: post →
  (∀ x, x ∈ pre → returns eval_expr root self tree cache x) →
  anchored eval_expr root self tree cache n = Raise e →
  pre = []
  ∨ reached maxhits
      (length (filter (λ x, succeeds eval_expr root self tree cache x = true)
                 pre)) = false →
  ∃ res,
    find_match eval_expr budget fuel root self tree maxhits cache
      target_traversal match_type σ = Some res
    ∧ yielded res
      = filter (λ x, succeeds eval_expr root self tree cache x = true) pre
    ∧ outcome res = Raise e.
Proof.
  intros Hmt Hnodes Hret Hn Hreach. unfold find_match.
  rewrite bool_decide_eq_false_2 by done. eexists. split; [done|].
  rewrite Hnodes. by apply plain_loop_raises.
Qed.

End more_plain_mode.

(** ** More on cascade_match and on cascade mode *)

Section more_cascade.
Import TreePattern.

Variable eval_expr :
  nat → option TreePatternCache.t → string → tnode → tnode → result pyval.
Variables (root : pattern) (world : tnode).
Variable cache : option TreePatternCache.t.

(** [cascade_match] terminates: with a recursion budget of the height of
    the pattern or more it returns or raises, always with the same result,
    and the pattern node it returns is a node of the pattern it was called
    on. *)
Theorem cascade_match_terminates (self : pattern) (node : tnode)
    (σ : store) :
  ∃ σ' r,
    (∀ fuel, (pheight self ≤ fuel)%nat →
             cascade_match eval_expr fuel root self world node cache σ
             = Some (σ', r))
    ∧ ∀ st p' ns, r = Return (st, p', ns) → p' ∈ pnodes self.
Proof.
  destruct (cascade_match_total eval_expr root world cache (pheight self)
              self node ltac:(lia) σ) as (σ' & r & Hrun & Hland).
  exists σ', r. split.
  - intros fuel Hfuel.
    by apply (cascade_match_mono eval_expr root world cache (pheight self)).
  - intros st p' ns ->. apply (Hland _ eq_refl).
Qed.

(** On a pattern node without children [cascade_match] is the local
    evaluation: it returns the status, the node itself, and the target
    node as the only matched node when the status is true and the pattern
    node is not the wildcard. *)
Lemma cascade_match_childless (fuel : nat) (self : pattern) (node : tnode)
    (σ : store) (status : pyval) :
  pchildren self = [] →
  is_local_match eval_expr (set_cache σ (psyntax self) cache) root self
    world node = Return status →
  cascade_match eval_expr (S fuel) root self world node cache σ
  = Some (set_cache (set_cache σ (psyntax self) cache) (psyntax self) None,
          Return (status, self,
                  if py_truthy status
                  then if String.eqb (pname self) "*" then [] else [node]
                  else [])).
Proof.
  intros Hcs Hlocal. rewrite cascade_match_unfold. unfold cascade_body.
  rewrite Hlocal, Hcs. simpl. by destruct (py_truthy status).
Qed.

Lemma cascade_loop_step (child : pattern → tnode → M cres)
    (target_at : nat → option tnode)
    (update : pyval → pyval → result pyval) (todo i : nat)
    (self : pattern) (st : pyval) (ns : list tnode) (p : pattern)
    (t : tnode) :
  pchildren self !! i = Some p → target_at i = Some t →
  cascade_loop child target_at update (S todo) i self st ns
  = bindM (child p t) (λ r,
      bindM (lift (update st r.1.1))
        (λ st', cascade_loop child target_at update todo (S i) r.1.2 st'
                  (ns ++ r.2))).
Proof. intros Hp Ht. simpl. by rewrite Hp, Ht. Qed.

Lemma cascade_loop_index_error (child : pattern → tnode → M cres)
    (target_at : nat → option tnode)
    (update : pyval → pyval → result pyval) (todo i : nat)
    (self : pattern) (st : pyval) (ns : list tnode) :
  pchildren self !! i = None →
  cascade_loop child target_at update (S todo) i self st ns
  = raise IndexError.
Proof. intros Hp. simpl. by rewrite Hp. Qed.

Lemma bindM_return {A B : Type} (m : M A) (k : A → M B) (σ σ' : store)
    (a : A) :
  m σ = Some (σ', Return a) → bindM m k σ = k a σ'.
Proof. intros H. unfold bindM. by rewrite H. Qed.

Lemma bindM_raise {A B : Type} (m : M A) (k : A → M B) (σ σ' : store)
    (e : exn) :
  m σ = Some (σ', Raise e) → bindM m k σ = Some (σ', Raise e).
Proof. intros H. unfold bindM. by rewrite H. Qed.

(** A pattern node with two or more children whose first child has none:
    when the local constraint holds at a target node with enough children
    and the constraint of the first child evaluates to [None], a boolean
    or an integer at the first child of the target, [cascade_match] raises
    [IndexError]. The recursive call has assigned the first child to
    [self], and [self.children[1]] does not exist. *)
Theorem cascade_match_branching_raises (fuel : nat) (self : pattern)
    (node : tnode) (σ : store) (c0 c1 : pattern) (cs : list pattern)
    (t0 : tnode) (ts : list tnode) (status st : pyval) :
  pchildren self = c0 :: c1 :: cs →
  pchildren c0 = [] →
  children node = t0 :: ts →
  (length (pchildren self) ≤ length (children node))%nat →
  let σ1 := set_cache σ (psyntax self) cache in
  is_local_match eval_expr σ1 root self world node = Return status →
  py_truthy status = true →
  is_local_match eval_expr (set_cache σ1 (psyntax c0) cache) root c0 world
    t0 = Return st →
  st = VNone ∨ (∃ b, st = VBool b) ∨ (∃ n, st = VInt n) →
  cascade_match eval_expr (S (S fuel)) root self world node cache σ
  = Some (set_cache (set_cache σ1 (psyntax c0) cache) (psyntax c0) None,
          Raise IndexError).
Proof.
  intros Hcs Hc0 Hts Hlen σ1 Hlocal Htrue Hlocal0 Hst.
  assert (∃ st', and_unless_none (VBool true) st = Return st')
    as [st' Hand]
    by (destruct Hst as [-> | [[b ->] | [n ->]]]; by eexists).
  rewrite cascade_match_unfold. unfold cascade_body. fold σ1.
  rewrite Hlocal, Htrue.
  rewrite bool_decide_eq_true_2 by by rewrite Hcs.
  rewrite bool_decide_eq_true_2 by done.
  pose proof (itertools_permutations_head (children node)) as Hhead.
  destruct (itertools_permutations (children node)) as [|cand cands];
    [done|]. injection Hhead as ->.
  pose proof (cascade_match_childless fuel c0 t0 σ1 st Hc0 Hlocal0) as Hrec.
  set (rec := λ p t, cascade_match eval_expr (S fuel) root p world t cache)
    in *.
  cbn [cascade_candidates]. unfold cascade_children.
  rewrite Hcs at 1. cbn [length].
  rewrite (cascade_loop_step rec _ _ _ 0 self _ _ c0 t0)
    by (by rewrite ?Hcs, ?Hts).
  apply bindM_raise, bindM_raise.
  rewrite (bindM_return _ _ _ _ _ Hrec). cbn [fst snd].
  rewrite (bindM_return _ _ _ _ st') by (unfold lift; by rewrite Hand).
  by rewrite cascade_loop_index_error by by rewrite Hc0.
Qed.

(** The matched nodes of the loop over the candidates extend the ones it
    started with. *)
Lemma cascade_candidates_prefix
    (child : pattern → tnode → M cres) (candidates : list (list tnode)) :
  ∀ self status matched_nodes σ σ' r,
    cascade_candidates child candidates self status matched_nodes σ
    = Some (σ', Return r) →
    ∃ more, r.2 = matched_nodes ++ more.
Proof.
  induction candidates as [|c candidates IH];
    intros self status mn σ σ' r; simpl.
  - intros [= <- <-]. exists []. by rewrite app_nil_r.
  - unfold bindM at 1.
    destruct (cascade_children child _ 0 self c (VBool true) [] σ)
      as [[σ1 [a|e]]|]; [|done..].
    destruct (py_truthy a.1.1).
    + intros [= <- <-]. by eexists.
    + intros H. apply IH in H as [more ->].
      exists (a.2 ++ more). by rewrite app_assoc.
Qed.

(** What [cascade_match] reports: when the local constraint fails, the
    status, the pattern node itself and no matched node; when it holds at
    a pattern node other than the wildcard, a list of matched nodes that
    starts with the target node. *)
Theorem cascade_match_reports_target (fuel : nat) (self : pattern)
    (node : tnode) (σ σ' : store) (status st : pyval) (p' : pattern)
    (ns : list tnode) :
  is_local_match eval_expr (set_cache σ (psyntax self) cache) root self
    world node = Return status →
  cascade_match eval_expr fuel root self world node cache σ
  = Some (σ', Return (st, p', ns)) →
  (py_truthy status = false → st = status ∧ p' = self ∧ ns = [])
  ∧ (py_truthy status = true → pname self ≠ "*" → head ns = Some node).
Proof.
  intros Hlocal. destruct fuel as [|fuel]; [done|].
  rewrite cascade_match_unfold. unfold cascade_body. rewrite Hlocal.
  destruct (py_truthy status) eqn:Hst.
  2: { unfold cascade_return. intros [= ? ? ? ?]. subst. by split. }
  intros Hrun. split; [done|]. intros _ Hname.
  apply String.eqb_neq in Hname. rewrite Hname in Hrun.
  destruct (bool_decide (pchildren self ≠ [])).
  2: { unfold cascade_return in Hrun. injection Hrun as ? ? ? ?.
       by subst. }
  destruct (bool_decide (_ ≤ _)%nat).
  - unfold bindM in Hrun.
    destruct (cascade_candidates _ _ self status [node] _)
      as [[σ1 [a|e]]|] eqn:E; [|done..].
    apply cascade_candidates_prefix in E as [more Hmore].
    unfold cascade_return in Hrun. injection Hrun as ? Ha. subst a.
    simpl in Hmore. by rewrite Hmore.
  - unfold cascade_return in Hrun. injection Hrun as ? ? ? ?. by subst.
Qed.

(** The retry counter bounds the result: in cascade mode [find_match]
    yields at most six nodes, whatever [maxhits] is. *)
Lemma cascade_while_at_most (budget fuel : nat) (self : pattern) :
  ∀ tree matched_root_node count num_hits σ res,
    cascade_while eval_expr budget fuel root self cache tree
      matched_root_node count num_hits σ = Some res →
    (length (yielded res) ≤ 6 - count)%nat.
Proof.
  induction budget as [|budget IH]; intros tree mrn count nh σ res; [done|].
  simpl.
  destruct (bool_decide (_ ≤ _)%nat); simpl;
    [|intros [= <-]; simpl; lia].
  case_bool_decide as Hcount; simpl; [|intros [= <-]; simpl; lia].
  destruct (match mrn with
            | None => if bool_decide (count ≠ 0) then None else Some tree
            | Some m => Some (detach (tid m) tree)
            end) as [tree'|]; [|intros [= <-]; simpl; lia].
  destruct (cascade_scan eval_expr fuel root tree' cache
              (pattern_length self) (preorder tree') self None nh σ)
    as [[σ' [[[mrn' nh'] y]|e]]|]; [| |done].
  - destruct (cascade_while eval_expr budget fuel root self cache tree' mrn'
                (count + 1) nh' σ') as [rest|] eqn:E; [|done].
    intros [= <-]. simpl. apply IH in E. rewrite length_app.
    destruct y; simpl; lia.
  - intros [= <-]. simpl. lia.
Qed.

Theorem find_match_cascade_at_most_six (budget fuel : nat)
    (self : pattern) (tree : tnode) (maxhits : option Z)
    (target_traversal : strategy) (σ : store) (res : search) :
  find_match eval_expr budget fuel root self tree maxhits cache
    target_traversal (Some "cascade") σ = Some res →
  (length (yielded res) ≤ 6)%nat.
Proof.
  unfold find_match. rewrite bool_decide_eq_true_2 by done.
  intros H. apply cascade_while_at_most in H. lia.
Qed.

End more_cascade.

(** ** Concrete runs of the further properties *)

Lemma match_binds_pattern_scopes_only_witness :
  (TreePattern.match_ eval_name pattern_A pattern_A node_A node_A
     (Some cache_A) ∅).1 !! 5%nat = (∅ : store) !! 5%nat.
Proof.
  apply (match_binds_pattern_scopes_only eval_name pattern_A node_A
           (Some cache_A) 5 pattern_A node_A ∅).
  simpl. rewrite list_elem_of_singleton. done.
Defined.

Lemma match_ignores_earlier_bindings_witness :
  (TreePattern.match_ eval_name pattern_A pattern_A node_A node_A None
     (<[0%nat := cache_A]> ∅)).2
  = (TreePattern.match_ eval_name pattern_A pattern_A node_A node_A None
       ∅).2.
Proof.
  by apply (match_ignores_earlier_bindings eval_name pattern_A node_A None
              pattern_A node_A).
Defined.

Lemma match_needs_enough_children_witness :
  (length (pchildren pattern_AB) ≤ length (children tree_AB))%nat.
Proof.
  apply (match_needs_enough_children eval_false pattern_AB tree_AB None
           pattern_AB tree_AB ∅ (VBool true)); [reflexivity|reflexivity|done].
Defined.

Lemma wildcard_finds_every_node_witness :
  ∃ res,
    TreePattern.find_match eval_name 0 0 (PNode "*" 0 []) (PNode "*" 0 [])
      tree_AA None None Postorder None ∅ = Some res
    ∧ TreePattern.yielded res = traverse Postorder tree_AA
    ∧ TreePattern.outcome res = Return ().
Proof.
  apply (wildcard_finds_every_node eval_name (PNode "*" 0 []) tree_AA None
           (PNode "*" 0 [])); [by right|done|done].
Defined.

Lemma find_match_plain_bounds_witness :
  ∃ res,
    TreePattern.find_match eval_name 0 0 pattern_A pattern_A tree_AA
      (Some 1%Z) None Preorder None ∅ = Some res
    ∧ (length (TreePattern.yielded res) ≤ Z.to_nat (Z.max 1 1))%nat.
Proof.
  eexists. split; [reflexivity|].
  eapply (find_match_plain_bounds eval_name pattern_A pattern_A tree_AA
            None 0 0 (Some 1%Z) Preorder None ∅); [done|reflexivity|done].
Defined.

Lemma find_match_plain_raises_witness :
  ∃ res,
    TreePattern.find_match eval_first_child 0 0 first_child_pattern
      first_child_pattern tree_AA None None Preorder None ∅ = Some res
    ∧ TreePattern.yielded res
      = filter (λ x, succeeds eval_first_child first_child_pattern
                       first_child_pattern tree_AA None x = true) [tree_AA]
    ∧ TreePattern.outcome res
      = Raise (ValueError TreePattern.failed_msg).
Proof.
  apply (find_match_plain_raises eval_first_child first_child_pattern
           first_child_pattern tree_AA None eq_refl 0 0 None Preorder None ∅
           [tree_AA] (TNode 1 "A" None None []) [TNode 2 "A" None None []]).
  - done.
  - reflexivity.
  - intros x Hx. apply list_elem_of_singleton in Hx as ->. by eexists.
  - reflexivity.
  - by right.
Defined.

Lemma cascade_match_terminates_witness :
  ∃ σ' r,
    TreePattern.cascade_match eval_name (pheight wildcard_over_A)
      wildcard_over_A wildcard_over_A node_A node_A None ∅ = Some (σ', r).
Proof.
  destruct (cascade_match_terminates eval_name wildcard_over_A node_A None
              wildcard_over_A node_A ∅) as (σ' & r & Hrun & _).
  exists σ', r. by apply Hrun.
Defined.

Lemma cascade_match_branching_raises_witness :
  ∃ σ',
    TreePattern.cascade_match eval_name 2 pattern_AB pattern_AB tree_AB
      tree_AB None ∅ = Some (σ', Raise IndexError).
Proof.
  eexists.
  apply (cascade_match_branching_raises eval_name pattern_AB tree_AB None
           0 pattern_AB tree_AB ∅ (PNode "A" 0 []) (PNode "B" 0 []) []
           (TNode 1 "A" None None []) [TNode 2 "B" None None []]
           (VBool true) (VBool true));
    first [reflexivity | simpl; lia | right; left; by eexists].
Defined.

Lemma cascade_match_reports_target_witness :
  ∃ σ' st p' ns,
    TreePattern.cascade_match eval_name 1 pattern_A pattern_A node_A node_A
      None ∅ = Some (σ', Return (st, p', ns))
    ∧ head ns = Some node_A.
Proof.
  eexists _, _, _, _. split; [reflexivity|].
  eapply (cascade_match_reports_target eval_name pattern_A node_A None 1
            pattern_A node_A ∅ _ (VBool true)); [reflexivity|reflexivity|
            reflexivity|done].
Defined.

Lemma find_match_cascade_at_most_six_witness :
  ∃ res,
    TreePattern.find_match eval_false 7 1 pattern_at pattern_at tree_AA
      None None Preorder (Some "cascade") ∅ = Some res
    ∧ (length (TreePattern.yielded res) ≤ 6)%nat.
Proof.
  eexists. split; [reflexivity|].
  eapply (find_match_cascade_at_most_six eval_false pattern_at None 7 1
            pattern_at tree_AA None Preorder ∅). reflexivity.
Defined.

(** ** Non-boolean children, and one-node patterns in cascade mode *)

Section more_engine.
Import TreePattern.

Variable eval_expr :
  nat → option TreePatternCache.t → string → tnode → tnode → result pyval.
Variables (root : pattern) (world : tnode).
Variable cache : option TreePatternCache.t.

(** A value that [&] does not accept. *)
Definition not_an_operand (v : pyval) : Prop :=
  match v with
  | VStr _ | VOther _ => True
  | _ => False
  end.

(** The status of a child is combined with [&]: when the first pattern
    child, matched against the first child of the target node, returns a
    string or another value that [&] does not accept, [match] raises a
    [TypeError]. *)
Theorem match_non_boolean_child (self : pattern) (node : tnode)
    (σ σ2 : store) (c0 : pattern) (cs : list pattern) (t0 : tnode)
    (ts : list tnode) (status v : pyval) :
  pchildren self = c0 :: cs →
  children node = t0 :: ts →
  (length (pchildren self) ≤ length (children node))%nat →
  let σ1 := set_cache σ (psyntax self) cache in
  is_local_match eval_expr σ1 root self world node = Return status →
  py_truthy status = true →
  match_ eval_expr root c0 world t0 cache σ1 = (σ2, Return v) →
  not_an_operand v →
  match_ eval_expr root self world node cache σ = (σ2, Raise TypeError).
Proof.
  intros Hcs Hts Hlen σ1 Hlocal Htrue Hchild Hv.
  rewrite match_unfold. cbv zeta. fold σ1. rewrite Hlocal, Htrue.
  rewrite bool_decide_eq_true_2 by by rewrite Hcs.
  rewrite bool_decide_eq_true_2 by done.
  pose proof (itertools_permutations_head (children node)) as Hhead.
  destruct (itertools_permutations (children node)) as [|cand cands];
    [done|]. injection Hhead as ->.
  rewrite Hcs, Hts. simpl. rewrite Hchild.
  by destruct v.
Qed.

(** A pattern without children has length zero, so the inner loop of
    cascade mode stops after the first node of the traversal: the nodes
    after it are never tested. *)
Theorem cascade_scan_one_node_pattern (fuel : nat) (self : pattern)
    (tree node : tnode) (nodes : list tnode) (current : pattern)
    (matched_root_node : option tnode) (num_hits : nat) (σ : store) :
  pchildren self = [] →
  pattern_length self = 0%nat
  ∧ cascade_scan eval_expr fuel root tree cache (pattern_length self)
      (node :: nodes) current matched_root_node num_hits σ
    = cascade_scan eval_expr fuel root tree cache (pattern_length self)
        [node] current matched_root_node num_hits σ.
Proof.
  intros Hcs.
  assert (Hlen : pattern_length self = 0%nat).
  { unfold pattern_length. destruct self as [n s cs]. simpl in Hcs.
    by subst cs. }
  split; [done|]. rewrite Hlen. simpl. unfold bindM.
  destruct (cascade_match eval_expr fuel root current tree node cache σ)
    as [[σ' [[[st pn] mn]|e]]|]; [|done..].
  by destruct (py_truthy st).
Qed.

End more_engine.

Lemma match_non_boolean_child_witness :
  ∃ σ2,
    TreePattern.match_ eval_name (PNode EmptyString 0 [name_pattern])
      (PNode EmptyString 0 [name_pattern]) tree_AA tree_AA None ∅
    = (σ2, Raise TypeError).
Proof.
  eexists.
  apply (match_non_boolean_child eval_name
           (PNode EmptyString 0 [name_pattern]) tree_AA None
           (PNode EmptyString 0 [name_pattern]) tree_AA ∅ _ name_pattern []
           (TNode 1 "A" None None []) [TNode 2 "A" None None []]
           (VBool true) (VStr "A"));
    first [reflexivity | done | simpl; lia].
Defined.

Lemma cascade_scan_one_node_pattern_witness :
  pattern_length pattern_A = 0%nat.
Proof.
  exact (proj1 (cascade_scan_one_node_pattern eval_name pattern_A None 1
                  pattern_A tree_AA tree_AA [] pattern_A None 0 ∅ eq_refl)).
Defined.
